(** * starchain: a shallow embedding of [block.js], [blockchain.js] and
    [helpers.js], and the properties of the chain-integrity and
    ownership-notarization engine.

    [blockchain.js] holds two revisions of the [Blockchain] class; the
    embedding follows the first one (the one whose [_addBlock] validates the
    chain and whose [validateChain] walks it), and has what the second one
    does differently in a module of its own.

    Conventions of the embedding
    - JavaScript objects are mutable and shared: [Block] objects live in a
      store ([gmap loc Block]) and the chain array holds references ([loc]).
    - A promise is modelled by the value it settles with ([promise]); the
      operations run to completion one at a time, but for the one call that
      is followed around its [await] ([new_and_addBlock_at_once]).
    - The external collaborators are parameters: the digest [SHA256], the
      signature oracle [verify], the payload codec ([encode], [decode]) and
      the clock reading in milliseconds ([now]). *)

From Stdlib Require Import ZArith String Ascii DecimalString DecimalZ Lia.
From stdpp Require Import base option list gmap strings.

Local Open Scope Z_scope.

(** ** JavaScript values, errors and promises *)

Module JS.

(** The values a block field is given by the code ([null], integer-valued
    numbers, strings) and [BigInt], a value [JSON.stringify] refuses.
    Numbers are the integers; a double is exact on them up to [2^53].

    This is the whole domain of field values here. The other values a
    caller could write into a field behind the program's back ([NaN], the
    infinities and [-0], boxed strings and numbers, objects with a
    [toJSON]) are not in it; [JSON.stringify] prints some of them like
    [null] or like a primitive, so what is proved of [stringify_val] on
    this type (that it tells any two values apart) holds of
    [JSON.stringify] on [null], integers and strings, not beyond.

    A string is held as the bytes of its UTF-8 form, as the string
    literals of this file are. *)
Inductive jsval : Type :=
| JNull
| JNum (n : Z)
| JStr (s : string)
| JBigInt (n : Z).

#[export] Instance jsval_eq_dec : EqDecision jsval.
Proof. solve_decision. Defined.

(** [a === b] *)
Definition strict_eq (a b : jsval) : bool := bool_decide (a = b).

(** The truth value of [v] in a condition. *)
Definition truthy (v : jsval) : bool :=
  match v with
  | JNull => false
  | JNum n => negb (n =? 0)
  | JStr s => negb (String.eqb s EmptyString)
  | JBigInt n => negb (n =? 0)
  end.

(** [v == null] *)
Definition is_null (v : jsval) : bool :=
  match v with JNull => true | _ => false end.

(** An [Error] object: its class name and its message. *)
Record error : Type := mkError { name : string; message : string }.

#[export] Instance error_eq_dec : EqDecision error.
Proof. solve_decision. Defined.

(** [String(e)] for an error [e] *)
Definition Error_toString (e : error) : string :=
  name e +:+ ": " +:+ message e.

Definition TypeError (msg : string) : error := mkError "TypeError" msg.
Definition Error (msg : string) : error := mkError "Error" msg.

(** The outcome of a synchronous call. *)
Inductive completion (A : Type) : Type :=
| Normal (a : A)
| Throw (e : error).
Arguments Normal {A} a.
Arguments Throw {A} e.

(** The outcome a promise settles with. *)
Inductive promise (A : Type) : Type :=
| Resolved (a : A)
| Rejected (e : error).
Arguments Resolved {A} a.
Arguments Rejected {A} e.

#[export] Instance completion_ret : MRet completion := fun A a => Normal a.
#[export] Instance completion_bind : MBind completion := fun A B k c =>
  match c with
  | Normal a => k a
  | Throw e => Throw e
  end.

(** *** [JSON.stringify] on the values above *)

Definition dquote : ascii := "034"%char.
Definition backslash : ascii := "092"%char.

Definition hex_digit (n : N) : ascii :=
  if (n <? 10)%N then ascii_of_N (48 + n) else ascii_of_N (87 + n).

(** One character of a quoted JSON string: the quote, the backslash and the
    control characters are escaped. *)
Definition escape_char (c : ascii) : string :=
  let n := N_of_ascii c in
  if Ascii.eqb c dquote then String backslash (String dquote EmptyString)
  else if Ascii.eqb c backslash then String backslash (String backslash EmptyString)
  else if (n =? 8)%N then String backslash "b"
  else if (n =? 9)%N then String backslash "t"
  else if (n =? 10)%N then String backslash "n"
  else if (n =? 12)%N then String backslash "f"
  else if (n =? 13)%N then String backslash "r"
  else if (n <? 32)%N then
    String backslash
      (String "u" (String "0" (String "0"
         (String (hex_digit (n / 16)) (String (hex_digit (n mod 16)) EmptyString)))))
  else String c EmptyString.

Fixpoint escape (s : string) : string :=
  match s with
  | EmptyString => EmptyString
  | String c s' => escape_char c +:+ escape s'
  end.

Definition quote (s : string) : string :=
  String dquote (escape s +:+ String dquote EmptyString).

(** The decimal form of an integer. *)
Definition string_of_Z (n : Z) : string := NilZero.string_of_int (Z.to_int n).

Definition stringify_val (v : jsval) : completion string :=
  match v with
  | JNull => Normal "null"
  | JNum n => Normal (string_of_Z n)
  | JStr s => Normal (quote s)
  | JBigInt _ => Throw (TypeError "Do not know how to serialize a BigInt")
  end.

(** [quote k : v] for a property [k] holding [v] *)
Definition member (k : string) (v : string) : string :=
  quote k +:+ ":" +:+ v.

(** *** [parseInt], [split] and [slice] *)

(** The characters [parseInt] skips at the start ([StrWhiteSpaceChar], the
    white space and the line terminators of the language), each by the
    bytes of its UTF-8 form, which is how a string is held here. Those of
    one byte: TAB, LF, VT, FF, CR and the space. *)
Definition is_ws (c : ascii) : bool :=
  let n := N_of_ascii c in
  ((n =? 32) || ((9 <=? n) && (n <=? 13)))%N.

(** Of two bytes: U+00A0, the no-break space ([C2 A0]). *)
Definition is_ws2 (c1 c2 : ascii) : bool :=
  ((N_of_ascii c1 =? 194) && (N_of_ascii c2 =? 160))%N.

(** Of three bytes: U+1680 ([E1 9A 80]); U+2000 to U+200A, the line and
    paragraph separators U+2028 and U+2029, and U+202F ([E2 80 80] to
    [E2 80 8A], [E2 80 A8], [E2 80 A9], [E2 80 AF]); U+205F ([E2 81 9F]);
    U+3000 ([E3 80 80]); and U+FEFF ([EF BB BF]). *)
Definition is_ws3 (c1 c2 c3 : ascii) : bool :=
  let n1 := N_of_ascii c1 in
  let n2 := N_of_ascii c2 in
  let n3 := N_of_ascii c3 in
  (((n1 =? 225) && (n2 =? 154) && (n3 =? 128))
   || ((n1 =? 226) && (n2 =? 128)
       && (((128 <=? n3) && (n3 <=? 138))
           || (n3 =? 168) || (n3 =? 169) || (n3 =? 175)))
   || ((n1 =? 226) && (n2 =? 129) && (n3 =? 159))
   || ((n1 =? 227) && (n2 =? 128) && (n3 =? 128))
   || ((n1 =? 239) && (n2 =? 187) && (n3 =? 191)))%N.

Fixpoint skip_ws (s : string) : string :=
  match s with
  | String c1 s1 =>
      if is_ws c1 then skip_ws s1
      else
        match s1 with
        | String c2 s2 =>
            if is_ws2 c1 c2 then skip_ws s2
            else
              match s2 with
              | String c3 s3 => if is_ws3 c1 c2 c3 then skip_ws s3 else s
              | EmptyString => s
              end
        | EmptyString => s
        end
  | EmptyString => s
  end.

Definition digit_val (radix : Z) (c : ascii) : option Z :=
  let n := Z.of_N (N_of_ascii c) in
  let d :=
    if (48 <=? n) && (n <=? 57) then Some (n - 48)
    else if (97 <=? n) && (n <=? 122) then Some (n - 87)
    else if (65 <=? n) && (n <=? 90) then Some (n - 55)
    else None in
  match d with
  | Some k => if k <? radix then Some k else None
  | None => None
  end.

(** The longest prefix of digits; [None] ([NaN]) when there is none. *)
Fixpoint parse_digits (radix : Z) (s : string) (acc : option Z) : option Z :=
  match s with
  | EmptyString => acc
  | String c s' =>
      match digit_val radix c with
      | Some k => parse_digits radix s' (Some (radix * default 0 acc + k))
      | None => acc
      end
  end.

(** [parseInt(s)]; [None] stands for [NaN]. *)
Definition parseInt (s : string) : option Z :=
  let s := skip_ws s in
  let '(sign, s) :=
    match s with
    | String "-" r => (-1, r)
    | String "+" r => (1, r)
    | _ => (1, s)
    end in
  let '(radix, s) :=
    match s with
    | String "0" (String "x" r) => (16, r)
    | String "0" (String "X" r) => (16, r)
    | _ => (10, s)
    end in
  Z.mul sign <$> parse_digits radix s None.

(** [parseInt(x)] where [x] may be [undefined] ([None]): ["undefined"] has
    no digits. *)
Definition parseInt_opt (x : option string) : option Z :=
  match x with
  | Some s => parseInt s
  | None => None
  end.

(** [s.split(sep)] for a separator of one character *)
Fixpoint split (sep : ascii) (s : string) : list string :=
  match s with
  | EmptyString => [EmptyString]
  | String c s' =>
      if Ascii.eqb c sep then EmptyString :: split sep s'
      else match split sep s' with
           | w :: ws => String c w :: ws
           | [] => [String c EmptyString]
           end
  end.

(** [s.slice(0, -k)] *)
Definition slice_drop_last (k : nat) (s : string) : string :=
  String.substring 0 (String.length s - k) s.

(** *** Reading a quoted string back

    The inverse of [escape_char] at the head of a string, as [JSON.parse]
    reads it: the character that the head stands for and what follows it;
    [None] at a closing quote or at a malformed escape. *)

Definition hex_val (c : ascii) : option N :=
  let n := N_of_ascii c in
  if ((48 <=? n) && (n <=? 57))%N then Some (n - 48)%N
  else if ((97 <=? n) && (n <=? 102))%N then Some (n - 87)%N
  else None.

Definition unescape_head (s : string) : option (ascii * string) :=
  match s with
  | EmptyString => None
  | String c r =>
      if Ascii.eqb c dquote then None
      else if Ascii.eqb c backslash then
        match r with
        | String e r' =>
            if Ascii.eqb e dquote then Some (dquote, r')
            else if Ascii.eqb e backslash then Some (backslash, r')
            else if Ascii.eqb e "b" then Some (ascii_of_N 8, r')
            else if Ascii.eqb e "t" then Some (ascii_of_N 9, r')
            else if Ascii.eqb e "n" then Some (ascii_of_N 10, r')
            else if Ascii.eqb e "f" then Some (ascii_of_N 12, r')
            else if Ascii.eqb e "r" then Some (ascii_of_N 13, r')
            else if Ascii.eqb e "u" then
              match r' with
              | String _ (String _ (String x (String y r''))) =>
                  match hex_val x, hex_val y with
                  | Some a, Some b => Some (ascii_of_N (16 * a + b), r'')
                  | _, _ => None
                  end
              | _ => None
              end
            else None
        | EmptyString => None
        end
      else Some (c, r)
  end.

(** The characters of a decimal number, and those that end a value inside
    an object. *)
Definition num_char (c : ascii) : bool :=
  let n := N_of_ascii c in
  ((n =? 45) || ((48 <=? n) && (n <=? 57)))%N.

Fixpoint all_chars (P : ascii -> bool) (s : string) : bool :=
  match s with
  | EmptyString => true
  | String c s' => P c && all_chars P s'
  end.

Definition terminator (c : ascii) : bool :=
  (Ascii.eqb c "," || Ascii.eqb c "}")%char.


(** *** Parsed JSON values (what [JSON.parse] returns) *)

#[local] Unset Elimination Schemes.
Inductive json : Type :=
| JsonNull
| JsonBool (b : bool)
| JsonNum (n : Z)
| JsonStr (s : string)
| JsonArr (items : list json)
| JsonObj (props : list (string * json)).
#[local] Set Elimination Schemes.

Fixpoint assoc (k : string) (props : list (string * json)) : option json :=
  match props with
  | [] => None
  | (k', v) :: rest => if String.eqb k' k then Some v else assoc k rest
  end.

(** [v.k] where [v] may be [undefined] ([None]); the result is [None] when
    the property is [undefined]. *)
Definition get_prop (k : string) (v : option json) : completion (option json) :=
  match v with
  | None =>
      Throw (TypeError ("Cannot read properties of undefined (reading '" +:+ k +:+ "')"))
  | Some JsonNull =>
      Throw (TypeError ("Cannot read properties of null (reading '" +:+ k +:+ "')"))
  | Some (JsonObj props) => Normal (assoc k props)
  | Some _ => Normal None
  end.

(** [const { k } = v] for a parsed value [v]: [v.k], but a [null] cannot be
    destructured. *)
Definition destructure_prop (k : string) (v : json) : completion (option json) :=
  match v with
  | JsonNull =>
      Throw (TypeError ("Cannot destructure property '" +:+ k
                        +:+ "' of '(intermediate value)' as it is null."))
  | _ => get_prop k (Some v)
  end.

End JS.
Export JS.

(** ** helpers.js *)

Module helpers.

(** [new Date().getTime().toString().slice(0, -3)], for the clock reading
    [now] (milliseconds since the epoch). *)
Definition getTimeStamp (now : Z) : string :=
  slice_drop_last 3 (string_of_Z now).

Definition minuteToSeconds (minutes : Z) : Z := minutes * 60.

End helpers.

(** ** block.js *)

Module Block.

Definition ValidateBlockError (msg : string) : error := mkError "ValidateBlockError" msg.
Definition GetBlockDataError (msg : string) : error := mkError "GetBlockDataError" msg.

(** The own properties of a [Block], in the order the constructor creates
    them (the order [JSON.stringify] writes them in). *)
Record t : Type := mk {
  hash : jsval;
  height : jsval;
  body : jsval;
  time : jsval;
  previousBlockHash : jsval
}.

#[export] Instance t_eq_dec : EqDecision t.
Proof. solve_decision. Defined.

Definition with_hash (v : jsval) (b : t) : t :=
  mk v (height b) (body b) (time b) (previousBlockHash b).
Definition with_height (v : jsval) (b : t) : t :=
  mk (hash b) v (body b) (time b) (previousBlockHash b).
Definition with_body (v : jsval) (b : t) : t :=
  mk (hash b) (height b) v (time b) (previousBlockHash b).
Definition with_time (v : jsval) (b : t) : t :=
  mk (hash b) (height b) (body b) v (previousBlockHash b).
Definition with_previousBlockHash (v : jsval) (b : t) : t :=
  mk (hash b) (height b) (body b) (time b) v.

(** [JSON.stringify(this)] *)
Definition JSON_stringify (self : t) : completion string :=
  h ← stringify_val (hash self);
  n ← stringify_val (height self);
  b ← stringify_val (body self);
  t ← stringify_val (time self);
  p ← stringify_val (previousBlockHash self);
  mret ("{" +:+ member "hash" h +:+ "," +:+ member "height" n +:+ ","
          +:+ member "body" b +:+ "," +:+ member "time" t +:+ ","
          +:+ member "previousBlockHash" p +:+ "}").

Section Methods.

(** [SHA256(s).toString()] *)
Variable SHA256 : string -> string.
(** [Buffer.from(JSON.stringify(data)).toString("hex")] *)
Variable encode : json -> string.
(** [JSON.parse(hex2ascii(body))] *)
Variable decode : jsval -> completion json.

Definition new (data : json) : t :=
  {| hash := JNull;
     height := JNum 0;
     body := JStr (encode data);
     time := JNum 0;
     previousBlockHash := JNull |}.

Definition _hashBlock (self : t) : completion string :=
  s ← JSON_stringify self; mret (SHA256 s).

(** [validate()]: the promise's outcome and the object as the call leaves
    it. The hash is cleared, the digest recomputed and the hash put back;
    when the recomputation throws, the [catch] rejects and the hash stays
    cleared. *)
Definition validate (self : t) : promise bool * t :=
  let currentHash := hash self in
  let self := with_hash JNull self in
  match _hashBlock self with
  | Normal newHash =>
      let self := with_hash currentHash self in
      (Resolved (strict_eq currentHash (JStr newHash)), self)
  | Throw e => (Rejected (ValidateBlockError (Error_toString e)), self)
  end.

(** [getBData()]: the first [reject]/[resolve] settles the promise; the
    genesis test does not return, the decoding still runs after it. *)
Definition getBData (self : t) : promise json :=
  let genesis :=
    if is_null (previousBlockHash self) || negb (truthy (height self))
    then Some (Rejected (GetBlockDataError "This is Genesis Block!"))
    else None in
  let decoded :=
    match decode (body self) with
    | Normal parsed => Resolved parsed
    | Throw e => Rejected (GetBlockDataError (Error_toString e))
    end in
  default decoded genesis.

Definition setHeight (height : Z) (self : t) : completion t :=
  if height <? 0 then Throw (Error "Height cannot be less then zero")
  else Normal (with_height (JNum height) self).

Definition setPreviousHash (hash : jsval) (self : t) : t :=
  if negb (is_null hash) then with_previousBlockHash hash self else self.

Definition setTimeStamp (now : Z) (self : t) : t :=
  with_time (JStr (helpers.getTimeStamp now)) self.

Definition setHash (self : t) : completion t :=
  h ← _hashBlock self; mret (with_hash (JStr h) self).

(** Sealing, as [_addBlock] chains it:
    [setPreviousHash(previousHash).setTimeStamp().setHeight(height).setHash()]. *)
Definition seal (previousHash : jsval) (now : Z) (height : Z) (self : t)
    : completion t :=
  self ← setHeight height (setTimeStamp now (setPreviousHash previousHash self));
  setHash self.

(** The digest does not collide on the serializations of [b1] and [b2]. *)
Definition no_collision (b1 b2 : t) : Prop :=
  forall s1 s2,
    JSON_stringify b1 = Normal s1 -> JSON_stringify b2 = Normal s2 ->
    SHA256 s1 = SHA256 s2 -> s1 = s2.

End Methods.

End Block.

(** ** blockchain.js *)

Module Blockchain.

Definition AddNewBlockError (msg : string) : error := mkError "AddNewBlockError" msg.
Definition SubmitStarError (msg : string) : error :=
  mkError "SubmitStarError" ("An error occured submitting a new star: " +:+ msg).
Definition GetStarByOwnerError (msg : string) : error :=
  mkError "GetStarByOwnerError" ("An error occured when searching stars by owner: " +:+ msg).

(** [new ValidationErrorLog(message, data)]; [data] is an object literal,
    kept as its properties in order. *)
Record ValidationErrorLog : Type := mkLog {
  message : string;
  data : list (string * jsval)
}.

#[export] Instance ValidationErrorLog_eq_dec : EqDecision ValidationErrorLog.
Proof. solve_decision. Defined.

(** References to [Block] objects. *)
Definition loc : Type := nat.

(** The [Blockchain] object ([chain], [height], [limitTime]) together with
    the store holding the [Block] objects it and its callers refer to. *)
Record state : Type := mkState {
  heap : gmap loc Block.t;
  chain : list loc;
  height : Z;
  limitTime : Z
}.

Definition with_heap (h : gmap loc Block.t) (st : state) : state :=
  mkState h (chain st) (height st) (limitTime st).

(** [new BlockClass.Block(...)]: the object is put at an unused reference. *)
Definition alloc (b : Block.t) (st : state) : loc * state :=
  let l := fresh (dom (heap st)) in
  (l, with_heap (<[l := b]> (heap st)) st).

(** [self.chain[i - 1]]; index [-1] holds nothing. *)
Definition before (chain : list loc) (i : nat) : option loc :=
  match i with
  | O => None
  | S j => chain !! j
  end.

(** What the loops keep while a promise is being settled: the first
    rejection is the one that counts. *)
Definition settle (rejected : option error) (e : error) : option error :=
  match rejected with
  | Some e0 => Some e0
  | None => Some e
  end.

Section Methods.

Variable SHA256 : string -> string.
Variable encode : json -> string.
Variable decode : jsval -> completion json.
(** [bitcoinMessage.verify(message, address, signature)] *)
Variable verify : string -> string -> string -> completion bool.

Definition not_valid (block : Block.t) : ValidationErrorLog :=
  mkLog "Block is not valid"
    [("hash", Block.hash block); ("height", Block.height block)].

Definition wrongly_linked (block previousBlock : Block.t) : ValidationErrorLog :=
  mkLog "Block is wrongly linked"
    [("hash", Block.hash block); ("height", Block.height block);
     ("previousBlockHashOnBlock", Block.previousBlockHash block);
     ("previousBlockHashOnChain", Block.hash previousBlock)].

(** One turn of the loop of [validateChain], at index [i]: the store, the
    log and the rejection (if any) before and after it. *)
Definition validateChain_step (chain : list loc) (i : nat)
    (acc : gmap loc Block.t * list ValidationErrorLog * option error)
    : gmap loc Block.t * list ValidationErrorLog * option error :=
  let '(h, errorLog, rejected) := acc in
  let block := chain !! i in
  let previousBlock := before chain i in
  match block with
  | Some l =>
      match h !! l with
      | Some b =>
          let '(blockIsNotTampered, b') := Block.validate SHA256 b in
          let h := <[l := b']> h in
          match blockIsNotTampered with
          | Resolved ok =>
              let errorLog :=
                if negb ok then errorLog ++ [not_valid b'] else errorLog in
              let errorLog :=
                match previousBlock ≫= (h !!.) with
                | Some pb =>
                    if truthy (Block.previousBlockHash b')
                       && negb (strict_eq (Block.previousBlockHash b') (Block.hash pb))
                    then errorLog ++ [wrongly_linked b' pb]
                    else errorLog
                | None => errorLog
                end in
              (h, errorLog, rejected)
          | Rejected e => (h, errorLog, settle rejected e)
          end
      | None =>
          (h, errorLog,
           settle rejected
             (TypeError "Cannot read properties of undefined (reading 'validate')"))
      end
  | None =>
      (h, errorLog,
       settle rejected
         (TypeError "Cannot read properties of undefined (reading 'validate')"))
  end.

(** The turns of the loop at the indices [indices], in order. *)
Definition validateChain_loop (chain : list loc) (indices : list nat)
    (acc : gmap loc Block.t * list ValidationErrorLog * option error)
    : gmap loc Block.t * list ValidationErrorLog * option error :=
  foldl (fun acc i => validateChain_step chain i acc) acc indices.

(** [validateChain()]: the loop runs over every index even after a
    rejection; [resolve(errorLog)] settles the promise only if no turn
    rejected. *)
Definition validateChain (st : state) : promise (list ValidationErrorLog) * state :=
  let '(h, errorLog, rejected) :=
    validateChain_loop (chain st) (seq 0 (length (chain st))) (heap st, [], None) in
  (match rejected with
   | Some e => Rejected e
   | None => Resolved errorLog
   end,
   with_heap h st).

(** [_addBlock(block)], with [now] the clock reading of [setTimeStamp]. *)
Definition _addBlock (now : Z) (block : loc) (st : state) : promise loc * state :=
  let chainLength := length (chain st) in
  let previousBlock := before (chain st) chainLength in
  match heap st !! block with
  | Some b =>
      let previousHash :=
        match previousBlock ≫= (heap st !!.) with
        | Some pb => Block.hash pb
        | None => JNull
        end in
      let b := Block.setTimeStamp now (Block.setPreviousHash previousHash b) in
      match Block.setHeight (Z.of_nat chainLength) b with
      | Normal b =>
          match Block.setHash SHA256 b with
          | Normal b =>
              let st := with_heap (<[block := b]> (heap st)) st in
              match validateChain st with
              | (Resolved errors, st) =>
                  if negb (bool_decide (errors = []))
                  then (Rejected (AddNewBlockError "Chain is invalid!"), st)
                  else (Resolved block,
                        mkState (heap st) (chain st ++ [block])
                                (height st + 1) (limitTime st))
              | (Rejected e, st) => (Rejected (AddNewBlockError (JS.message e)), st)
              end
          | Throw e =>
              (Rejected (AddNewBlockError (JS.message e)),
               with_heap (<[block := b]> (heap st)) st)
          end
      | Throw e =>
          (Rejected (AddNewBlockError (JS.message e)),
           with_heap (<[block := b]> (heap st)) st)
      end
  | None =>
      (Rejected (AddNewBlockError
                   "Cannot read properties of undefined (reading 'setPreviousHash')"),
       st)
  end.

(** [new Blockchain()] before [initializeChain] has run. *)
Definition constructor (h : gmap loc Block.t) : state :=
  {| heap := h; chain := []; height := -1;
     limitTime := helpers.minuteToSeconds 5 |}.

Definition genesis_data : json := JsonObj [("data", JsonStr "Genesis Block")].

Definition initializeChain (now : Z) (st : state) : state :=
  if height st =? -1 then
    let '(block, st) := alloc (Block.new encode genesis_data) st in
    snd (_addBlock now block st)
  else st.

(** A chain as [new Blockchain()] leaves it once the genesis block is in. *)
Definition new (now : Z) (h : gmap loc Block.t) : state :=
  initializeChain now (constructor h).

(** *** A call made before the constructor's append is through

    The executor of [_addBlock] is an [async] function: a call runs up to
    [await self.validateChain()], and what follows the [await] runs in a
    later turn of the event loop, after the continuations that were already
    waiting. The constructor does not wait for [initializeChain], so a call
    made right after [new Blockchain()] runs its first part while the chain
    is still empty. *)

(** Where a call of [_addBlock] stands when its first part is over: at the
    [await], with what the awaited promise settled with; or rejected by the
    [catch], the sealing having thrown. *)
Inductive suspended : Type :=
| Awaits (block : loc) (validated : promise (list ValidationErrorLog))
| Caught (e : error).

(** [_addBlock] up to its [await]. The started [validateChain()] is taken
    to settle within the same turn, as it does on an empty chain, where its
    loop has no [await] to stop at. *)
Definition _addBlock_until_await (now : Z) (block : loc) (st : state)
    : suspended * state :=
  let chainLength := length (chain st) in
  let previousBlock := before (chain st) chainLength in
  match heap st !! block with
  | Some b =>
      let previousHash :=
        match previousBlock ≫= (heap st !!.) with
        | Some pb => Block.hash pb
        | None => JNull
        end in
      let b := Block.setTimeStamp now (Block.setPreviousHash previousHash b) in
      match Block.setHeight (Z.of_nat chainLength) b with
      | Normal b =>
          match Block.setHash SHA256 b with
          | Normal b =>
              let st := with_heap (<[block := b]> (heap st)) st in
              let '(validated, st) := validateChain st in
              (Awaits block validated, st)
          | Throw e =>
              (Caught (AddNewBlockError (JS.message e)),
               with_heap (<[block := b]> (heap st)) st)
          end
      | Throw e =>
          (Caught (AddNewBlockError (JS.message e)),
           with_heap (<[block := b]> (heap st)) st)
      end
  | None =>
      (Caught (AddNewBlockError
                 "Cannot read properties of undefined (reading 'setPreviousHash')"),
       st)
  end.

(** [_addBlock] from its [await] on, in the state the chain is in by then. *)
Definition _addBlock_after_await (s : suspended) (st : state)
    : promise loc * state :=
  match s with
  | Awaits block (Resolved errors) =>
      if negb (bool_decide (errors = []))
      then (Rejected (AddNewBlockError "Chain is invalid!"), st)
      else (Resolved block,
            mkState (heap st) (chain st ++ [block])
                    (height st + 1) (limitTime st))
  | Awaits block (Rejected e) => (Rejected (AddNewBlockError (JS.message e)), st)
  | Caught e => (Rejected e, st)
  end.



Definition requestMessageOwnershipVerification (now : Z) (address : string)
    : promise string :=
  Resolved (address +:+ ":" +:+ helpers.getTimeStamp now +:+ ":starRegistry").

(** [currentTime - messageTime > limitTime]; a comparison with [NaN] is
    false. *)
Definition elapsed_exceeds (currentTime messageTime : option Z) (limit : Z) : bool :=
  match currentTime, messageTime with
  | Some c, Some m => limit <? c - m
  | _, _ => false
  end.

Definition star_data (address : string) (star : json) : json :=
  JsonObj [("data", JsonObj [("owner", JsonStr address); ("star", star)])].

(** The [catch] of [submitStar]: an error that is a [SubmitStarError] is
    passed on, any other is wrapped. *)
Definition as_SubmitStarError (e : error) : error :=
  if String.eqb (JS.name e) "SubmitStarError" then e
  else SubmitStarError (JS.message e).

(** [submitStar(address, message, signature, star)]; [now] is the clock
    reading of the freshness test and [now'] the later one of the append. *)
Definition submitStar (now now' : Z) (address message signature : string)
    (star : json) (st : state) : promise loc * state :=
  let messageTime := parseInt_opt (split ":" message !! 1%nat) in
  let currentTime := parseInt (helpers.getTimeStamp now) in
  if elapsed_exceeds currentTime messageTime (limitTime st) then
    (Rejected (SubmitStarError
                 "Too much time passed between request validation and submit"),
     st)
  else
    match verify message address signature with
    | Normal true =>
        let '(newBlock, st) := alloc (Block.new encode (star_data address star)) st in
        match _addBlock now' newBlock st with
        | (Resolved block, st) => (Resolved block, st)
        | (Rejected e, st) => (Rejected (as_SubmitStarError e), st)
        end
    | Normal false =>
        (Rejected (SubmitStarError "Validation for your message failed!"), st)
    | Throw e => (Rejected (as_SubmitStarError e), st)
    end.

Definition getBlockByHash (hash : jsval) (st : state) : promise (option loc) :=
  Resolved
    (List.find
       (fun l => match heap st !! l with
                 | Some b => strict_eq (Block.hash b) hash
                 | None => false
                 end)
       (chain st)).

Definition getBlockByHeight (height : jsval) (st : state) : promise (option loc) :=
  Resolved
    (head (List.filter
             (fun l => match heap st !! l with
                       | Some p => strict_eq (Block.height p) height
                       | None => false
                       end)
             (chain st))).

(** The loop of [getStarsByWalletAddress] over the blocks after the first;
    any throw leaves the loop and rejects. *)
Fixpoint collect_stars (h : gmap loc Block.t) (address : string)
    (blocks : list loc) (stars : list json) : promise (list json) :=
  match blocks with
  | [] => Resolved stars
  | l :: rest =>
      match h !! l with
      | Some block =>
          match Block.getBData decode block with
          | Resolved parsed =>
              match destructure_prop "data" parsed with
              | Normal data =>
                  match get_prop "owner" data with
                  | Normal owner =>
                      match owner, data with
                      | Some (JsonStr o), Some d =>
                          if String.eqb o address
                          then collect_stars h address rest (stars ++ [d])
                          else collect_stars h address rest stars
                      | _, _ => collect_stars h address rest stars
                      end
                  | Throw e => Rejected (GetStarByOwnerError (JS.message e))
                  end
              | Throw e => Rejected (GetStarByOwnerError (JS.message e))
              end
          | Rejected e => Rejected (GetStarByOwnerError (JS.message e))
          end
      | None =>
          Rejected (GetStarByOwnerError
                      "Cannot read properties of undefined (reading 'getBData')")
      end
  end.

Definition getStarsByWalletAddress (address : string) (st : state)
    : promise (list json) :=
  let chainWithoutGenesisBlock := drop 1 (chain st) in
  collect_stars (heap st) address chainWithoutGenesisBlock [].

End Methods.

(** *** Notions used to state the properties *)

Section Notions.

Variable SHA256 : string -> string.
Variable encode : json -> string.
Variable verify : string -> string -> string -> completion bool.

(** The block object at index [i] of the chain. *)
Definition block_at (st : state) (i : nat) : option Block.t :=
  chain st !! i ≫= (heap st !!.).

(** The chain's block sequence: the contents of its blocks, in order. *)
Definition blocks (st : state) : list (option Block.t) :=
  (heap st !!.) <$> chain st.

(** What the turn at index [i] of [validateChain] adds to the log, when the
    block there can be serialized. *)
Definition issues_at (h : gmap loc Block.t) (chain : list loc) (i : nat)
    : list ValidationErrorLog :=
  match chain !! i ≫= (h !!.) with
  | Some b =>
      (match fst (Block.validate SHA256 b) with
       | Resolved true => []
       | _ => [not_valid b]
       end)
      ++ (match before chain i ≫= (h !!.) with
          | Some pb =>
              if truthy (Block.previousBlockHash b)
                 && negb (strict_eq (Block.previousBlockHash b) (Block.hash pb))
              then [wrongly_linked b pb]
              else []
          | None => []
          end)
  | None => []
  end.

(** A block that [validateChain] can check: it is there and its fields can
    be serialized. *)
Definition checkable (h : gmap loc Block.t) (chain : list loc) (i : nat) : Prop :=
  exists l b s, chain !! i = Some l /\ h !! l = Some b
                /\ Block.JSON_stringify (Block.with_hash JNull b) = Normal s.

(** The state of the loop of [validateChain] when the object at [l], which
    the chain does not hold, is [x]. *)
Definition frame (l : loc) (x : Block.t)
    (acc : gmap loc Block.t * list ValidationErrorLog * option error)
    : gmap loc Block.t * list ValidationErrorLog * option error :=
  let '(h, log, rej) := acc in (<[l:=x]> h, log, rej).

(** The chain with the sealed candidate [b'] (the object at [block])
    pushed, as [_addBlock] commits it. *)
Definition pushed (block : loc) (b' : Block.t) (st : state) : state :=
  mkState (<[block:=b']> (heap st)) (chain st ++ [block])
          (height st + 1) (limitTime st).

(** The hash [_addBlock] hands to [setPreviousHash]:
    [previousBlock ? previousBlock.hash : null]. *)
Definition previousHash (st : state) : jsval :=
  match before (chain st) (length (chain st)) ≫= (heap st !!.) with
  | Some pb => Block.hash pb
  | None => JNull
  end.

(** [_addBlock(new BlockClass.Block(data))], the way [initializeChain] and
    [submitStar] append. *)
Definition append_new (now : Z) (data : json) (st : state) : promise loc * state :=
  let '(block, st) := alloc (Block.new encode data) st in
  _addBlock SHA256 now block st.

(** [built n st]: [st] is a freshly constructed chain after [n] successful
    appends of newly constructed blocks. *)
Inductive built : nat -> state -> Prop :=
| built_new now h : built 0 (new SHA256 encode now h)
| built_append n st now data block st' :
    built n st ->
    append_new now data st = (Resolved block, st') ->
    built (S n) st'.

(** The block [b] at index [i] is as [_addBlock] sealed it: it carries its
    index, its hash is the digest of its other fields, and it names the hash
    of the block before it. *)
Definition sealed_at (st : state) (i : nat) (b : Block.t) : Prop :=
  Block.height b = JNum (Z.of_nat i)
  /\ (exists s, Block.JSON_stringify (Block.with_hash JNull b) = Normal s
                /\ Block.hash b = JStr (SHA256 s))
  /\ match i with
     | O => True
     | S j => exists p, block_at st j = Some p
                        /\ Block.previousBlockHash b = Block.hash p
     end.

(** The invariant of a chain after [n] appends. *)
Definition consistent (n : nat) (st : state) : Prop :=
  length (chain st) = S n
  /\ height st = Z.of_nat n
  /\ limitTime st = 300
  /\ NoDup (chain st)
  /\ forall i, (i <= n)%nat ->
       exists b, block_at st i = Some b /\ sealed_at st i b.

(** [appended n st]: [st] is a freshly constructed chain after [n]
    successful appends of block objects that the chain did not hold yet,
    whatever these objects were; in between, the callers may create and
    change objects that the chain does not hold. *)
Inductive appended : nat -> state -> Prop :=
| appended_new now h : appended 0 (new SHA256 encode now h)
| appended_outside n st l x :
    appended n st ->
    l ∉ chain st ->
    appended n (with_heap (<[l:=x]> (heap st)) st)
| appended_add n st now block st' :
    appended n st ->
    block ∉ chain st ->
    _addBlock SHA256 now block st = (Resolved block, st') ->
    appended (S n) st'.

(** What every chain keeps under such appends: the block at index [i]
    carries the height [i] and a hash, and names the hash of the block
    before it. *)
Definition linked_at (st : state) (i : nat) (b : Block.t) : Prop :=
  Block.height b = JNum (Z.of_nat i)
  /\ (exists s, Block.hash b = JStr s)
  /\ match i with
     | O => True
     | S j => exists p, block_at st j = Some p
                        /\ Block.previousBlockHash b = Block.hash p
     end.

Definition linked (n : nat) (st : state) : Prop :=
  length (chain st) = S n
  /\ height st = Z.of_nat n
  /\ NoDup (chain st)
  /\ forall i, (i <= n)%nat ->
       exists b, block_at st i = Some b /\ linked_at st i b.

(** The errors [validateChain] can reject with, and the messages of the
    rejections of [_addBlock]. *)
Definition validateChain_rejections : list error :=
  [Block.ValidateBlockError
     (Error_toString (TypeError "Do not know how to serialize a BigInt"));
   TypeError "Cannot read properties of undefined (reading 'validate')"].

Definition addBlock_messages : list string :=
  ["Cannot read properties of undefined (reading 'setPreviousHash')";
   "Height cannot be less then zero";
   "Do not know how to serialize a BigInt";
   "Chain is invalid!"]
  ++ (JS.message <$> validateChain_rejections).

(** The two rejections [submitStar] throws itself. *)
Definition Expired : error :=
  SubmitStarError "Too much time passed between request validation and submit".
Definition BadSignature : error :=
  SubmitStarError "Validation for your message failed!".

(** [submitStar] from the signature check on (what runs once the freshness
    test has let the submission through). *)
Definition verify_and_append (now' : Z) (address message signature : string)
    (star : json) (st : state) : promise loc * state :=
  match verify message address signature with
  | Normal true =>
      match append_new now' (star_data address star) st with
      | (Resolved block, st) => (Resolved block, st)
      | (Rejected e, st) => (Rejected (as_SubmitStarError e), st)
      end
  | Normal false => (Rejected BadSignature, st)
  | Throw e => (Rejected (as_SubmitStarError e), st)
  end.

End Notions.

End Blockchain.

(** ** Stand-ins for the external collaborators, for the examples *)

Module Double.

(** A digest without collisions. *)
Definition SHA256 (s : string) : string := s.

(** A codec that keeps only what the examples look at. *)
Definition encode (data : json) : string :=
  match data with
  | JsonObj [(_, JsonStr _)] => "7b2264617461223a2247656e6573697320426c6f636b227d"
  | JsonObj [(_, JsonObj ((_, JsonStr owner) :: _))] => owner
  | _ => ""
  end.

Definition decode (body : jsval) : completion json :=
  match body with
  | JStr "7b2264617461223a2247656e6573697320426c6f636b227d" =>
      Normal Blockchain.genesis_data
  | JStr "" => Throw (mkError "SyntaxError" "Unexpected end of JSON input")
  | JStr owner => Normal (Blockchain.star_data owner (JsonStr "Polaris"))
  | _ => Throw (mkError "SyntaxError" "Unexpected end of JSON input")
  end.

(** Signature oracles that accept, respectively refuse, everything. *)
Definition accept (message address signature : string) : completion bool :=
  Normal true.
Definition refuse (message address signature : string) : completion bool :=
  Normal false.

End Double.

(** ** Concrete chains, for the examples *)

Module Example.

Import Blockchain.

Definition polaris : json := star_data "addr1" (JsonStr "Polaris").

(** [new Blockchain()] *)
Definition genesis_only : state :=
  new Double.SHA256 Double.encode 1604321234567 ∅.


(** The chain after one star has been appended. *)
Definition one_star : state :=
  snd (append_new Double.SHA256 Double.encode 1604321300000 polaris genesis_only).

Definition genesis_block : Block.t :=
  Eval vm_compute in default (Block.new Double.encode polaris) (block_at one_star 0).

Definition star_block : Block.t :=
  Eval vm_compute in default (Block.new Double.encode polaris) (block_at one_star 1).

(** The same chain after the body of the block at height 1 has been
    overwritten with a [BigInt]. *)
Definition corrupted : state :=
  with_heap (<[1%nat:=Block.with_body (JBigInt 10) star_block]> (heap one_star))
            one_star.

End Example.

(** ** The other [Blockchain] class of blockchain.js

    The second class of the file differs in [_addBlock], which pushes the
    sealed block without validating the chain, and in
    [getStarsByWalletAddress], which decodes all blocks with [Promise.all]
    before it filters them. (Its [validateChain] never settles its promise
    and has no outcome to model.) *)

Module Blockchain2.

Import Blockchain.

(** The second class comes with its own [SubmitStarError]. *)
Definition SubmitStarError (msg : string) : error :=
  mkError "SubmitStarError" ("An error occured during submit star: " +:+ msg).

Definition as_SubmitStarError (e : error) : error :=
  if String.eqb (JS.name e) "SubmitStarError" then e
  else SubmitStarError (JS.message e).

Section Methods.

Variable SHA256 : string -> string.
Variable encode : json -> string.
Variable decode : jsval -> completion json.
Variable verify : string -> string -> string -> completion bool.

(** [self.chain.length === 0 ? null : self.chain[self.chain.length - 1].hash] *)
Definition tail_hash (st : state) : completion jsval :=
  match length (chain st) with
  | O => Normal JNull
  | S j =>
      match chain st !! j ≫= (heap st !!.) with
      | Some pb => Normal (Block.hash pb)
      | None =>
          Throw (TypeError "Cannot read properties of undefined (reading 'hash')")
      end
  end.

Definition _addBlock (now : Z) (block : loc) (st : state) : promise loc * state :=
  match heap st !! block with
  | Some b =>
      match tail_hash st with
      | Normal previousHash =>
          let b := Block.setTimeStamp now (Block.setPreviousHash previousHash b) in
          match Block.setHeight (Z.of_nat (length (chain st))) b with
          | Normal b =>
              match Block.setHash SHA256 b with
              | Normal b =>
                  (Resolved block,
                   mkState (<[block:=b]> (heap st)) (chain st ++ [block])
                           (height st + 1) (limitTime st))
              | Throw e =>
                  (Rejected (AddNewBlockError (JS.message e)),
                   with_heap (<[block:=b]> (heap st)) st)
              end
          | Throw e =>
              (Rejected (AddNewBlockError (JS.message e)),
               with_heap (<[block:=b]> (heap st)) st)
          end
      | Throw e => (Rejected (AddNewBlockError (JS.message e)), st)
      end
  | None =>
      (Rejected (AddNewBlockError
                   "Cannot read properties of undefined (reading 'setPreviousHash')"),
       st)
  end.

(** [submitStar] of the second class: the same steps, on its own
    [_addBlock]. *)
Definition submitStar (now now' : Z) (address message signature : string)
    (star : json) (st : state) : promise loc * state :=
  let messageTime := parseInt_opt (split ":" message !! 1%nat) in
  let currentTime := parseInt (helpers.getTimeStamp now) in
  if elapsed_exceeds currentTime messageTime (limitTime st) then
    (Rejected (SubmitStarError
                 "Too much time passed between request validation and submit"),
     st)
  else
    match verify message address signature with
    | Normal true =>
        let '(newBlock, st) := alloc (Block.new encode (star_data address star)) st in
        match _addBlock now' newBlock st with
        | (Resolved block, st) => (Resolved block, st)
        | (Rejected e, st) => (Rejected (as_SubmitStarError e), st)
        end
    | Normal false =>
        (Rejected (SubmitStarError "Validation for your message failed!"), st)
    | Throw e => (Rejected (as_SubmitStarError e), st)
    end.

(** [chainWithoutGenesisBlock.map((block) => block.getBData())]: the
    promises, or the [TypeError] of the call on a missing block. *)
Fixpoint map_getBData (h : gmap loc Block.t) (blocks : list loc)
    : completion (list (promise json)) :=
  match blocks with
  | [] => Normal []
  | l :: rest =>
      match h !! l with
      | Some block =>
          ps ← map_getBData h rest; mret (Block.getBData decode block :: ps)
      | None =>
          Throw (TypeError "Cannot read properties of undefined (reading 'getBData')")
      end
  end.

(** [Promise.all]: the values in order, or the first rejection. *)
Fixpoint Promise_all {A} (ps : list (promise A)) : promise (list A) :=
  match ps with
  | [] => Resolved []
  | Resolved a :: rest =>
      match Promise_all rest with
      | Resolved xs => Resolved (a :: xs)
      | Rejected e => Rejected e
      end
  | Rejected e :: _ => Rejected e
  end.

(** [blocksData.filter((bData) => bData.data.owner === address)] *)
Fixpoint filter_owner (address : string) (blocksData : list json)
    : completion (list json) :=
  match blocksData with
  | [] => Normal []
  | bData :: rest =>
      data ← get_prop "data" (Some bData);
      owner ← get_prop "owner" data;
      kept ← filter_owner address rest;
      mret (match owner with
            | Some (JsonStr o) =>
                if String.eqb o address then bData :: kept else kept
            | _ => kept
            end)
  end.

(** [.map((bData) => bData.data)]; the elements passed the filter, so
    their [data] is read without a throw. *)
Definition map_data (blocksData : list json) : list json :=
  omap (fun bData =>
          match get_prop "data" (Some bData) with
          | Normal data => data
          | Throw _ => None
          end) blocksData.

(** The body of [getStarsByWalletAddress], for the blocks after the first. *)
Definition stars_of (h : gmap loc Block.t) (address : string)
    (blocks : list loc) : promise (list json) :=
  match map_getBData h blocks with
  | Normal ps =>
      match Promise_all ps with
      | Resolved blocksData =>
          match filter_owner address blocksData with
          | Normal kept => Resolved (map_data kept)
          | Throw e => Rejected (GetStarByOwnerError (JS.message e))
          end
      | Rejected e => Rejected (GetStarByOwnerError (JS.message e))
      end
  | Throw e => Rejected (GetStarByOwnerError (JS.message e))
  end.

Definition getStarsByWalletAddress (address : string) (st : state)
    : promise (list json) :=
  let chainWithoutGenesisBlock := drop 1 (chain st) in
  stars_of (heap st) address chainWithoutGenesisBlock.

End Methods.

End Blockchain2.

(** ** Notions for the properties of the other operations *)

Module Notary.

Import Blockchain.

(** The decimal digits, and the number a string of them stands for. *)
Definition digit_char (c : ascii) : bool :=
  let n := N_of_ascii c in ((48 <=? n) && (n <=? 57))%N.

Definition dec_value (s : string) : Z := default 0 (parse_digits 10 s (Some 0)).

(** [s] has no [sep] in it. *)
Definition free_of (sep : ascii) (s : string) : bool :=
  all_chars (fun c => negb (Ascii.eqb c sep)) s.

(** The value a promise resolves with, if it does. *)
Definition resolved {A} (p : promise A) : option A :=
  match p with
  | Resolved a => Some a
  | Rejected _ => None
  end.

(** The cached height is the last index of the array. *)
Definition height_cached (st : state) : Prop :=
  height st = Z.of_nat (length (chain st)) - 1.

(** The object [getStarsByWalletAddress] returns for the record of an
    owner and a star. *)
Definition record_data (r : string * json) : json :=
  JsonObj [("owner", JsonStr r.1); ("star", r.2)].

Section Notions.

Variable SHA256 : string -> string.
Variable decode : jsval -> completion json.

(** The blocks after the first decode to the records [rs], in order. *)
Definition holds_records (st : state) (rs : list (string * json)) : Prop :=
  Forall2
    (fun l r =>
       exists b, heap st !! l = Some b
                 /\ Block.getBData decode b = Resolved (star_data r.1 r.2))
    (drop 1 (chain st)) rs.

(** The block at index [i] passes [validate] and, when its previous hash is
    not empty, names the hash of the block before it. *)
Definition sound_at (st : state) (i : nat) : Prop :=
  exists b,
    block_at st i = Some b
    /\ Block.validate SHA256 b = (Resolved true, b)
    /\ forall p, before (chain st) i ≫= (heap st !!.) = Some p ->
                 truthy (Block.previousBlockHash b) = true ->
                 Block.previousBlockHash b = Block.hash p.

End Notions.

End Notary.

(** ** A chain that was written to behind its back, for the examples *)

Module Scenario.

Import Blockchain Example.

(** The chain with one star after the body of the block at height 1 has
    been overwritten with another string. *)
Definition overwritten : state :=
  with_heap (<[1%nat:=Block.with_body (JStr "00") star_block]> (heap one_star))
            one_star.

(** The same chain and a new block made by the caller, not yet appended. *)
Definition overwritten_with_candidate : state :=
  snd (alloc (Block.new Double.encode polaris) overwritten).

(** The challenge issued for [addr1] at the clock reading 1604321234567. *)
Definition challenge : string := "addr1:1604321234:starRegistry".




End Scenario.

Import Blockchain.

(** * Facts *)

(** ** Strings and [JSON.stringify] *)

Section JSON_facts.

Lemma append_String c s r : String c s +:+ r = String c (s +:+ r).
Proof. reflexivity. Qed.
Lemma append_Empty r : "" +:+ r = r.
Proof. reflexivity. Qed.
Lemma append_assoc s1 s2 s3 : (s1 +:+ s2) +:+ s3 = s1 +:+ (s2 +:+ s3).
Proof. induction s1 as [|c s1 IH]; [done|]. by rewrite !append_String, IH. Qed.

Lemma unescape_escape_char c r :
  unescape_head (escape_char c +:+ r) = Some (c, r).
Proof.
  destruct c as [[] [] [] [] [] [] [] []]; reflexivity.
Qed.

Lemma unescape_dquote r : unescape_head (String dquote r) = None.
Proof. reflexivity. Qed.

Lemma escape_inj s1 s2 r1 r2 :
  escape s1 +:+ String dquote r1 = escape s2 +:+ String dquote r2 ->
  s1 = s2 /\ r1 = r2.
Proof.
  revert s2. induction s1 as [|c1 s1 IH]; intros [|c2 s2] E; simpl in E.
  - rewrite !append_Empty in E. by simplify_eq.
  - rewrite append_Empty, append_assoc in E.
    apply (f_equal unescape_head) in E.
    by rewrite unescape_escape_char, unescape_dquote in E.
  - rewrite append_Empty, append_assoc in E.
    apply (f_equal unescape_head) in E.
    by rewrite unescape_escape_char, unescape_dquote in E.
  - rewrite !append_assoc in E.
    apply (f_equal unescape_head) in E.
    rewrite !unescape_escape_char in E. simplify_eq.
    destruct (IH s2) as [-> ->]; done.
Qed.

Lemma all_chars_split P s1 s2 c1 c2 r1 r2 :
  all_chars P s1 = true -> all_chars P s2 = true ->
  P c1 = false -> P c2 = false ->
  s1 +:+ String c1 r1 = s2 +:+ String c2 r2 ->
  s1 = s2 /\ c1 = c2 /\ r1 = r2.
Proof.
  revert s2. induction s1 as [|a s1 IH]; intros [|b s2] H1 H2 Hc1 Hc2 E;
    rewrite ?append_Empty, ?append_String in E; simplify_eq/=.
  - done.
  - rewrite Hc1 in H2. done.
  - rewrite Hc2 in H1. done.
  - apply andb_prop in H1 as [_ H1]. apply andb_prop in H2 as [_ H2].
    destruct (IH s2) as (-> & -> & ->); done.
Qed.

Lemma uint_digits d : all_chars num_char (NilEmpty.string_of_uint d) = true.
Proof. induction d; simpl; done. Qed.

Lemma string_of_Z_digits n : all_chars num_char (string_of_Z n) = true.
Proof.
  unfold string_of_Z, NilZero.string_of_int, NilZero.string_of_uint.
  destruct (Z.to_int n) as [d|d]; destruct d; simpl; rewrite ?uint_digits; done.
Qed.

Lemma string_of_Z_head n : exists c s, string_of_Z n = String c s /\ num_char c = true.
Proof.
  pose proof (string_of_Z_digits n) as H.
  unfold string_of_Z, NilZero.string_of_int, NilZero.string_of_uint in *.
  destruct (Z.to_int n) as [d|d]; destruct d; simpl in *; eauto.
Qed.

Lemma string_of_Z_inj n m : string_of_Z n = string_of_Z m -> n = m.
Proof.
  intros E. apply DecimalZ.to_int_inj.
  assert (Hn : forall k, Z.to_int k <> Decimal.Pos Decimal.Nil /\ Z.to_int k <> Decimal.Neg Decimal.Nil).
  { intros [|p|p]; simpl; split; try discriminate;
      intros [= H]; by apply DecimalPos.Unsigned.to_uint_nonnil in H. }
  apply (f_equal NilZero.int_of_string) in E. unfold string_of_Z in E.
  rewrite !NilZero.isi in E by apply Hn. congruence.
Qed.

Lemma terminator_not_num c : terminator c = true -> num_char c = false.
Proof.
  unfold terminator. intros [H|H]%orb_prop; apply Ascii.eqb_eq in H; by subst.
Qed.

Lemma stringify_val_inj v1 v2 s1 s2 c1 c2 r1 r2 :
  stringify_val v1 = Normal s1 -> stringify_val v2 = Normal s2 ->
  terminator c1 = true -> terminator c2 = true ->
  s1 +:+ String c1 r1 = s2 +:+ String c2 r2 ->
  v1 = v2 /\ c1 = c2 /\ r1 = r2.
Proof.
  intros H1 H2 T1 T2 E.
  destruct v1 as [|n1|x1|n1], v2 as [|n2|x2|n2]; simpl in H1, H2;
    try discriminate; injection H1 as <-; injection H2 as <-.
  - rewrite !append_String, !append_Empty in E. by simplify_eq.
  - destruct (string_of_Z_head n2) as (c & s & Hs & Hc); rewrite Hs in E.
    rewrite !append_String in E. by simplify_eq.
  - unfold quote in E. rewrite !append_String in E. by simplify_eq.
  - destruct (string_of_Z_head n1) as (c & s & Hs & Hc); rewrite Hs in E.
    rewrite !append_String in E. by simplify_eq.
  - destruct (all_chars_split num_char _ _ _ _ _ _
                (string_of_Z_digits n1) (string_of_Z_digits n2)
                (terminator_not_num _ T1) (terminator_not_num _ T2) E)
      as (En & -> & ->).
    by apply string_of_Z_inj in En as ->.
  - destruct (string_of_Z_head n1) as (c & s & Hs & Hc); rewrite Hs in E.
    unfold quote in E. rewrite !append_String in E. by simplify_eq.
  - unfold quote in E. rewrite !append_String in E. by simplify_eq.
  - destruct (string_of_Z_head n2) as (c & s & Hs & Hc); rewrite Hs in E.
    unfold quote in E. rewrite !append_String in E. by simplify_eq.
  - unfold quote in E.
    rewrite !append_String, !append_assoc, !append_String, !append_Empty in E.
    simplify_eq. apply escape_inj in E as [-> E]. by simplify_eq.
Qed.

Ltac eval_quotes H :=
  repeat match type of H with
         | context [quote ?k] =>
             let v := eval vm_compute in (quote k) in
             change (quote k) with v in H
         end.

(** Over the field values of [jsval], two blocks with the same
    serialization are the same block. *)
Lemma JSON_stringify_inj b1 b2 s :
  Block.JSON_stringify b1 = Normal s -> Block.JSON_stringify b2 = Normal s ->
  b1 = b2.
Proof.
  destruct b1 as [h1 n1 d1 t1 p1], b2 as [h2 n2 d2 t2 p2].
  unfold Block.JSON_stringify; simpl.
  destruct (stringify_val h1) as [sh1|] eqn:Hh1; [|done].
  destruct (stringify_val n1) as [sn1|] eqn:Hn1; [|done].
  destruct (stringify_val d1) as [sd1|] eqn:Hd1; [|done].
  destruct (stringify_val t1) as [st1|] eqn:Ht1; [|done].
  destruct (stringify_val p1) as [sp1|] eqn:Hp1; [|done].
  destruct (stringify_val h2) as [sh2|] eqn:Hh2; [|done].
  destruct (stringify_val n2) as [sn2|] eqn:Hn2; [|done].
  destruct (stringify_val d2) as [sd2|] eqn:Hd2; [|done].
  destruct (stringify_val t2) as [st2|] eqn:Ht2; [|done].
  destruct (stringify_val p2) as [sp2|] eqn:Hp2; [|done].
  simpl. intros [= <-] [= E]. unfold member in E. eval_quotes E.
  rewrite !append_assoc, !append_String, !append_Empty in E.
  simplify_eq.
  apply (stringify_val_inj _ _ _ _ _ _ _ _ Hh2 Hh1) in E as (-> & _ & E); [|done..].
  simplify_eq.
  apply (stringify_val_inj _ _ _ _ _ _ _ _ Hn2 Hn1) in E as (-> & _ & E); [|done..].
  simplify_eq.
  apply (stringify_val_inj _ _ _ _ _ _ _ _ Hd2 Hd1) in E as (-> & _ & E); [|done..].
  simplify_eq.
  apply (stringify_val_inj _ _ _ _ _ _ _ _ Ht2 Ht1) in E as (-> & _ & E); [|done..].
  simplify_eq.
  apply (stringify_val_inj _ _ _ _ _ _ _ _ Hp2 Hp1) in E as (-> & _ & E); [|done..].
  done.
Qed.

End JSON_facts.

(** ** [Block] *)

Section Block_facts.

Variable SHA256 : string -> string.

Lemma with_hash_hash (b : Block.t) : Block.with_hash (Block.hash b) b = b.
Proof. by destruct b. Qed.

Lemma with_hash_twice v w (b : Block.t) :
  Block.with_hash v (Block.with_hash w b) = Block.with_hash v b.
Proof. done. Qed.

Lemma with_hash_null_id (b : Block.t) :
  Block.hash b = JNull -> Block.with_hash JNull b = b.
Proof. intros <-. apply with_hash_hash. Qed.

(** [validate] when the block (hash cleared) can be serialized. *)
Lemma validate_Normal (b : Block.t) s :
  Block.JSON_stringify (Block.with_hash JNull b) = Normal s ->
  Block.validate SHA256 b
  = (Resolved (strict_eq (Block.hash b) (JStr (SHA256 s))), b).
Proof.
  intros Hs. unfold Block.validate, Block._hashBlock. rewrite Hs. simpl.
  by destruct b.
Qed.

(** [validate] when it cannot: the hash is left cleared. *)
Lemma validate_Throw (b : Block.t) e :
  Block.JSON_stringify (Block.with_hash JNull b) = Throw e ->
  Block.validate SHA256 b
  = (Rejected (Block.ValidateBlockError (Error_toString e)), Block.with_hash JNull b).
Proof.
  intros Hs. unfold Block.validate, Block._hashBlock. by rewrite Hs.
Qed.

Lemma validate_Resolved (b b' : Block.t) ok :
  Block.validate SHA256 b = (Resolved ok, b') -> b' = b.
Proof.
  destruct (Block.JSON_stringify (Block.with_hash JNull b)) as [s|e] eqn:Hs.
  - rewrite (validate_Normal _ _ Hs). congruence.
  - rewrite (validate_Throw _ _ Hs). congruence.
Qed.

Lemma setHash_Normal (b b' : Block.t) :
  Block.setHash SHA256 b = Normal b' ->
  exists s, Block.JSON_stringify b = Normal s
            /\ b' = Block.with_hash (JStr (SHA256 s)) b.
Proof.
  unfold Block.setHash, Block._hashBlock.
  destruct (Block.JSON_stringify b) as [s|e]; simpl; [|done].
  intros [= <-]. eauto.
Qed.

(** A block sealed while its hash was unset passes [validate]. *)
Lemma setHash_validate (b b' : Block.t) :
  Block.hash b = JNull ->
  Block.setHash SHA256 b = Normal b' ->
  Block.validate SHA256 b' = (Resolved true, b').
Proof.
  intros Hh (s & Hs & ->)%setHash_Normal.
  rewrite (validate_Normal _ s).
  - simpl. unfold strict_eq. by rewrite bool_decide_eq_true_2.
  - by rewrite with_hash_twice, with_hash_null_id.
Qed.

Lemma seal_Normal previousHash now h (b b' : Block.t) :
  Block.seal SHA256 previousHash now h b = Normal b' ->
  0 <= h /\
  Block.setHash SHA256
    (Block.with_height (JNum h)
       (Block.setTimeStamp now (Block.setPreviousHash previousHash b)))
  = Normal b'.
Proof.
  unfold Block.seal, Block.setHeight.
  destruct (Z.ltb_spec h 0); simpl; [done|]. auto.
Qed.

Lemma seal_hash_unset previousHash now h (b : Block.t) :
  Block.hash
    (Block.with_height (JNum h)
       (Block.setTimeStamp now (Block.setPreviousHash previousHash b)))
  = Block.hash b.
Proof. unfold Block.setPreviousHash. by destruct (negb _). Qed.

(** A mutation of a valid block that leaves the hash alone is caught, as long
    as the digest does not collide on the two serializations. *)
Lemma validate_mutation (b b' : Block.t) s' :
  Block.validate SHA256 b = (Resolved true, b) ->
  Block.hash b' = Block.hash b ->
  b' <> b ->
  Block.JSON_stringify (Block.with_hash JNull b') = Normal s' ->
  Block.no_collision SHA256 (Block.with_hash JNull b) (Block.with_hash JNull b') ->
  Block.validate SHA256 b' = (Resolved false, b').
Proof.
  intros Hv Hh Hne Hs' Hinj.
  destruct (Block.JSON_stringify (Block.with_hash JNull b)) as [s|e] eqn:Hs;
    [|by rewrite (validate_Throw _ _ Hs) in Hv].
  rewrite (validate_Normal _ _ Hs) in Hv.
  rewrite (validate_Normal _ _ Hs'). f_equal. f_equal.
  injection Hv as Hv. apply bool_decide_eq_true_1 in Hv.
  apply bool_decide_eq_false_2. rewrite Hh, Hv. intros [= E].
  apply (Hinj _ _ Hs Hs') in E. subst s'.
  pose proof (JSON_stringify_inj _ _ _ Hs Hs') as Eb.
  apply Hne. destruct b, b'. unfold Block.with_hash in Eb. by simplify_eq/=.
Qed.

(** A second [setHash] is computed over the first hash: the block no longer
    passes [validate]. *)
Lemma setHash_again (b b' : Block.t) :
  Block.hash b <> JNull ->
  Block.setHash SHA256 b = Normal b' ->
  Block.no_collision SHA256 b (Block.with_hash JNull b) ->
  Block.validate SHA256 b' = (Resolved false, b').
Proof.
  intros Hh (s & Hs & ->)%setHash_Normal Hinj.
  destruct (Block.JSON_stringify (Block.with_hash JNull b)) as [s0|e] eqn:Hs0.
  - rewrite (validate_Normal _ s0) by done. simpl. f_equal. f_equal.
    apply bool_decide_eq_false_2. intros [= E].
    apply (Hinj _ _ Hs Hs0) in E. subst s0.
    pose proof (JSON_stringify_inj _ _ _ Hs Hs0) as Eb.
    apply Hh. by rewrite Eb.
  - exfalso. revert Hs Hs0. unfold Block.JSON_stringify. simpl.
    destruct (stringify_val (Block.hash b)); simpl; [|done].
    destruct (stringify_val (Block.height b)); simpl; [|done].
    destruct (stringify_val (Block.body b)); simpl; [|done].
    destruct (stringify_val (Block.time b)); simpl; [|done].
    destruct (stringify_val (Block.previousBlockHash b)); simpl; done.
Qed.

End Block_facts.

(** ** [validateChain] *)

Section validateChain_facts.

Variable SHA256 : string -> string.

Local Abbreviation step := (validateChain_step SHA256).
Local Abbreviation run := (validateChain_loop SHA256).

Lemma with_heap_heap (st : state) : with_heap (heap st) st = st.
Proof. by destruct st. Qed.

Lemma loop_nil chain acc : run chain [] acc = acc.
Proof. done. Qed.

Lemma loop_cons chain i ixs acc :
  run chain (i :: ixs) acc = run chain ixs (step chain i acc).
Proof. done. Qed.

Lemma loop_app chain ixs1 ixs2 acc :
  run chain (ixs1 ++ ixs2) acc = run chain ixs2 (run chain ixs1 acc).
Proof. apply foldl_app. Qed.

Lemma step_Normal chain i l h (b : Block.t) s log rej :
  chain !! i = Some l -> h !! l = Some b ->
  Block.JSON_stringify (Block.with_hash JNull b) = Normal s ->
  step chain i (h, log, rej) = (h, log ++ issues_at SHA256 h chain i, rej).
Proof.
  intros Hi Hl Hs. unfold validateChain_step, issues_at.
  rewrite Hi. simpl. rewrite Hl, (validate_Normal _ _ _ Hs). simpl.
  rewrite (insert_id h l b Hl).
  destruct (strict_eq (Block.hash b) (JStr (SHA256 s))); simpl;
    destruct (before chain i ≫= (h !!.)) as [pb|]; simpl;
    try destruct (truthy _ && _); simpl;
    by rewrite <- ?(assoc_L (++)), ?(right_id_L [] (++)).
Qed.

Lemma step_Throw chain i l h (b : Block.t) e log rej :
  chain !! i = Some l -> h !! l = Some b ->
  Block.JSON_stringify (Block.with_hash JNull b) = Throw e ->
  step chain i (h, log, rej)
  = (<[l := Block.with_hash JNull b]> h, log,
     settle rej (Block.ValidateBlockError (Error_toString e))).
Proof.
  intros Hi Hl Hs. unfold validateChain_step.
  by rewrite Hi, Hl, (validate_Throw _ _ _ Hs).
Qed.

Lemma step_missing chain i h log rej :
  chain !! i ≫= (h !!.) = None ->
  exists e, step chain i (h, log, rej) = (h, log, settle rej e).
Proof.
  unfold validateChain_step. intros H.
  destruct (chain !! i) as [l|]; simpl in *; [rewrite H|]; eauto.
Qed.

(** Once a turn has rejected, the promise stays rejected with that error. *)
Lemma step_rejected chain i h log e :
  exists h' log', step chain i (h, log, Some e) = (h', log', Some e).
Proof.
  destruct (chain !! i ≫= (h !!.)) as [b|] eqn:Hb.
  - apply bind_Some in Hb as (l & Hi & Hb).
    destruct (Block.JSON_stringify (Block.with_hash JNull b)) as [s|e'] eqn:Hs.
    + rewrite (step_Normal _ _ _ _ _ _ _ _ Hi Hb Hs). eauto.
    + rewrite (step_Throw _ _ _ _ _ _ _ _ Hi Hb Hs). eauto.
  - destruct (step_missing chain i h log (Some e) Hb) as [e' ->]. eauto.
Qed.

Lemma run_rejected chain ixs h log e :
  exists h' log', run chain ixs (h, log, Some e) = (h', log', Some e).
Proof.
  revert h log. induction ixs as [|i ixs IH]; intros h log; [by eauto|].
  destruct (step_rejected chain i h log e) as (h1 & log1 & E).
  rewrite loop_cons, E. apply IH.
Qed.

Lemma run_checkable chain ixs h log rej :
  (forall i, i ∈ ixs -> checkable h chain i) ->
  run chain ixs (h, log, rej)
  = (h, log ++ flat_map (issues_at SHA256 h chain) ixs, rej).
Proof.
  revert log. induction ixs as [|i ixs IH]; intros log Hc.
  - rewrite loop_nil. simpl. by rewrite app_nil_r.
  - destruct (Hc i) as (l & b & s & Hi & Hl & Hs); [by left|].
    rewrite loop_cons, (step_Normal _ _ _ _ _ _ _ _ Hi Hl Hs), IH.
    + simpl. by rewrite <- (assoc_L (++)).
    + intros j Hj. apply Hc. by right.
Qed.

(** When no turn rejects, every block was checkable, the store is as it
    was and the log is the issues of the blocks in order. *)
Lemma run_resolved chain ixs h log rej h' log' :
  run chain ixs (h, log, rej) = (h', log', None) ->
  rej = None /\ h' = h
  /\ log' = log ++ flat_map (issues_at SHA256 h chain) ixs
  /\ forall i, i ∈ ixs -> checkable h chain i.
Proof.
  revert h log rej. induction ixs as [|i ixs IH]; intros h log rej E.
  - rewrite loop_nil in E. simplify_eq. simpl. rewrite app_nil_r.
    repeat split; try done. intros i Hi. by apply elem_of_nil in Hi.
  - destruct rej as [e|].
    { destruct (run_rejected chain (i :: ixs) h log e) as (? & ? & E').
      congruence. }
    rewrite loop_cons in E.
    destruct (chain !! i ≫= (h !!.)) as [b|] eqn:Hb.
    + apply bind_Some in Hb as (l & Hi & Hb).
      destruct (Block.JSON_stringify (Block.with_hash JNull b)) as [s|e'] eqn:Hs.
      * rewrite (step_Normal _ _ _ _ _ _ _ _ Hi Hb Hs) in E.
        apply IH in E as (_ & -> & -> & Hc).
        repeat split; try done; [simpl; by rewrite <- (assoc_L (++))|].
        intros j [->|Hj]%elem_of_cons; [|by auto].
        by exists l, b, s.
      * rewrite (step_Throw _ _ _ _ _ _ _ _ Hi Hb Hs) in E. simpl in E.
        by apply IH in E as (? & _).
    + destruct (step_missing chain i h log None Hb) as [e' E'].
      rewrite E' in E. simpl in E. by apply IH in E as (? & _).
Qed.

(** *** Blocks outside the chain do not matter *)

Lemma before_elem (chain : list loc) i l : before chain i = Some l -> l ∈ chain.
Proof. destruct i; simpl; [done|]. apply list_elem_of_lookup_2. Qed.

Lemma lookup_prev_frame (chain : list loc) i l x (h : gmap loc Block.t) :
  l ∉ chain ->
  before chain i ≫= (<[l:=x]> h !!.) = before chain i ≫= (h !!.).
Proof.
  intros Hl. destruct (before chain i) as [pl|] eqn:Hp; simpl; [|done].
  apply lookup_insert_ne. intros ->. by apply before_elem in Hp.
Qed.

Lemma lookup_block_frame (chain : list loc) i l x (h : gmap loc Block.t) :
  l ∉ chain ->
  chain !! i ≫= (<[l:=x]> h !!.) = chain !! i ≫= (h !!.).
Proof.
  intros Hl. destruct (chain !! i) as [l'|] eqn:Hi; simpl; [|done].
  apply lookup_insert_ne. intros ->. by apply list_elem_of_lookup_2 in Hi.
Qed.


Lemma step_frame chain i l x acc :
  l ∉ chain ->
  step chain i (frame l x acc) = frame l x (step chain i acc).
Proof.
  intros Hl. destruct acc as [[h log] rej]. unfold validateChain_step, frame.
  destruct (chain !! i) as [l'|] eqn:Hi; [|done].
  assert (l <> l') as Hne.
  { intros ->. by apply list_elem_of_lookup_2 in Hi. }
  rewrite lookup_insert_ne by done.
  destruct (h !! l') as [b|]; [|done].
  destruct (Block.validate SHA256 b) as [[ok|e] b']; [|by rewrite insert_insert_ne].
  rewrite (insert_insert_ne _ l' l) by done.
  by rewrite lookup_prev_frame.
Qed.

Lemma run_frame chain ixs l x acc :
  l ∉ chain ->
  run chain ixs (frame l x acc) = frame l x (run chain ixs acc).
Proof.
  intros Hl. revert acc. induction ixs as [|i ixs IH]; intros acc; [done|].
  by rewrite !loop_cons, step_frame, IH.
Qed.

(** *** A chain with one more block *)

Lemma step_snoc chain l i acc :
  (i < length chain)%nat ->
  step (chain ++ [l]) i acc = step chain i acc.
Proof.
  intros Hi. destruct acc as [[h log] rej]. unfold validateChain_step.
  rewrite (lookup_app_l chain) by done.
  replace (before (chain ++ [l]) i) with (before chain i); [done|].
  destruct i as [|j]; simpl; [done|]. rewrite lookup_app_l; [done|lia].
Qed.

Lemma run_snoc chain l ixs acc :
  (forall i, i ∈ ixs -> (i < length chain)%nat) ->
  run (chain ++ [l]) ixs acc = run chain ixs acc.
Proof.
  revert acc. induction ixs as [|i ixs IH]; intros acc Hi; [done|].
  rewrite !loop_cons, step_snoc, IH; [done| |].
  - intros j Hj. apply Hi. by right.
  - apply Hi. by left.
Qed.

(** *** [validateChain] as a whole *)

Lemma validateChain_Resolved st errors st' :
  validateChain SHA256 st = (Resolved errors, st') ->
  st' = st
  /\ errors = flat_map (issues_at SHA256 (heap st) (chain st))
                       (seq 0 (length (chain st)))
  /\ forall i, (i < length (chain st))%nat -> checkable (heap st) (chain st) i.
Proof.
  unfold validateChain.
  destruct (validateChain_loop _ _ _ _) as [[h log] [e|]] eqn:E; [done|].
  intros [= <- <-]. apply run_resolved in E as (_ & -> & -> & Hc).
  rewrite with_heap_heap. split; [done|]. split; [done|].
  intros i Hi. apply Hc, elem_of_seq. lia.
Qed.

Lemma validateChain_checkable st :
  (forall i, (i < length (chain st))%nat -> checkable (heap st) (chain st) i) ->
  validateChain SHA256 st
  = (Resolved (flat_map (issues_at SHA256 (heap st) (chain st))
                        (seq 0 (length (chain st)))), st).
Proof.
  intros Hc. unfold validateChain. rewrite run_checkable.
  - by rewrite with_heap_heap.
  - intros i Hi%elem_of_seq. apply Hc. lia.
Qed.

(** A rejection of [validateChain] is one of two errors. *)
Lemma stringify_val_Throw v e :
  stringify_val v = Throw e ->
  e = TypeError "Do not know how to serialize a BigInt".
Proof. destruct v; simpl; congruence. Qed.

Lemma JSON_stringify_Throw b e :
  Block.JSON_stringify b = Throw e ->
  e = TypeError "Do not know how to serialize a BigInt".
Proof.
  unfold Block.JSON_stringify.
  destruct (stringify_val (Block.hash b)) eqn:E1; simpl;
    [|intros [= <-]; by eapply stringify_val_Throw].
  destruct (stringify_val (Block.height b)) eqn:E2; simpl;
    [|intros [= <-]; by eapply stringify_val_Throw].
  destruct (stringify_val (Block.body b)) eqn:E3; simpl;
    [|intros [= <-]; by eapply stringify_val_Throw].
  destruct (stringify_val (Block.time b)) eqn:E4; simpl;
    [|intros [= <-]; by eapply stringify_val_Throw].
  destruct (stringify_val (Block.previousBlockHash b)) eqn:E5; simpl;
    [done|intros [= <-]; by eapply stringify_val_Throw].
Qed.

End validateChain_facts.

(** ** [_addBlock] *)

Section addBlock_facts.

Variable SHA256 : string -> string.

Lemma validateChain_frame l x st :
  l ∉ chain st ->
  validateChain SHA256 (with_heap (<[l:=x]> (heap st)) st)
  = (fst (validateChain SHA256 st),
     with_heap (<[l:=x]> (heap (snd (validateChain SHA256 st)))) st).
Proof.
  intros Hl. unfold validateChain. simpl.
  change (<[l:=x]> (heap st), [], None)
    with (frame l x (heap st, @nil ValidationErrorLog, @None error)).
  rewrite run_frame by done.
  by destruct (validateChain_loop _ _ _ _) as [[h log] [e|]].
Qed.


Lemma seal_setHeight previousHash now (n : nat) (b : Block.t) :
  Block.seal SHA256 previousHash now (Z.of_nat n) b
  = Block.setHash SHA256
      (Block.with_height (JNum (Z.of_nat n))
         (Block.setTimeStamp now (Block.setPreviousHash previousHash b))).
Proof.
  unfold Block.seal, Block.setHeight.
  destruct (Z.ltb_spec (Z.of_nat n) 0); [lia|done].
Qed.

(** [_addBlock] once the candidate is sealed. *)
Lemma addBlock_sealed now l st (b b' : Block.t) :
  heap st !! l = Some b ->
  Block.seal SHA256 (previousHash st) now (Z.of_nat (length (chain st))) b
  = Normal b' ->
  _addBlock SHA256 now l st
  = match validateChain SHA256 (with_heap (<[l:=b']> (heap st)) st) with
    | (Resolved errors, st1) =>
        if negb (bool_decide (errors = []))
        then (Rejected (AddNewBlockError "Chain is invalid!"), st1)
        else (Resolved l,
              mkState (heap st1) (chain st1 ++ [l]) (height st1 + 1) (limitTime st1))
    | (Rejected e, st1) => (Rejected (AddNewBlockError (JS.message e)), st1)
    end.
Proof.
  intros Hl Hseal. rewrite seal_setHeight in Hseal.
  unfold _addBlock. rewrite Hl. fold (previousHash st).
  unfold Block.setHeight.
  destruct (Z.ltb_spec (Z.of_nat (length (chain st))) 0); [lia|].
  by rewrite Hseal.
Qed.

(** [_addBlock] when the candidate cannot be sealed. *)
Lemma addBlock_unsealed now l st (b : Block.t) e :
  heap st !! l = Some b ->
  Block.seal SHA256 (previousHash st) now (Z.of_nat (length (chain st))) b
  = Throw e ->
  exists x, _addBlock SHA256 now l st
            = (Rejected (AddNewBlockError (JS.message e)),
               with_heap (<[l:=x]> (heap st)) st).
Proof.
  intros Hl Hseal. rewrite seal_setHeight in Hseal.
  unfold _addBlock. rewrite Hl. fold (previousHash st).
  unfold Block.setHeight.
  destruct (Z.ltb_spec (Z.of_nat (length (chain st))) 0); [lia|].
  rewrite Hseal. eauto.
Qed.

(** The append is all or nothing on the array and the cached height. *)
Lemma addBlock_outcome now l st r st' :
  _addBlock SHA256 now l st = (r, st') ->
  (exists e, r = Rejected e /\ JS.name e = "AddNewBlockError"
             /\ chain st' = chain st /\ height st' = height st)
  \/ (r = Resolved l /\ chain st' = chain st ++ [l]
      /\ height st' = height st + 1).
Proof.
  destruct (heap st !! l) as [b|] eqn:Hl.
  - destruct (Block.seal SHA256 (previousHash st) now
                (Z.of_nat (length (chain st))) b) as [b'|e] eqn:Hseal.
    + rewrite (addBlock_sealed _ _ _ _ _ Hl Hseal).
      unfold validateChain.
      destruct (validateChain_loop _ _ _ _) as [[h log] [e|]]; simpl.
      * intros [= <- <-]. left. eauto.
      * destruct (negb _); intros [= <- <-]; [left|right]; eauto.
    + destruct (addBlock_unsealed _ _ _ _ _ Hl Hseal) as [x ->].
      intros [= <- <-]. left. eauto.
  - unfold _addBlock. rewrite Hl. intros [= <- <-]. left. eauto.
Qed.

(** A candidate that the chain does not hold, on a chain whose validation
    resolves: the verdict is that of the current chain, and the chain's
    blocks are not touched. *)
Lemma addBlock_not_stored now l st errors (b b' : Block.t) :
  l ∉ chain st ->
  fst (validateChain SHA256 st) = Resolved errors ->
  heap st !! l = Some b ->
  Block.seal SHA256 (previousHash st) now (Z.of_nat (length (chain st))) b
  = Normal b' ->
  _addBlock SHA256 now l st
  = if bool_decide (errors = [])
    then (Resolved l, pushed l b' st)
    else (Rejected (AddNewBlockError "Chain is invalid!"),
          with_heap (<[l:=b']> (heap st)) st).
Proof.
  intros Hn Hv Hl Hseal. rewrite (addBlock_sealed _ _ _ _ _ Hl Hseal).
  rewrite validateChain_frame by done.
  destruct (validateChain SHA256 st) as [r st1] eqn:E. simpl in Hv. subst r.
  apply validateChain_Resolved in E as (-> & _). simpl.
  by destruct (bool_decide (errors = [])).
Qed.


(** *** Validating the chain with the candidate pushed *)


Lemma flat_map_nil {A B} (f : A -> list B) xs x :
  flat_map f xs = [] -> x ∈ xs -> f x = [].
Proof.
  induction xs as [|y xs IH]; simpl; intros E Hx.
  - by apply elem_of_nil in Hx.
  - apply app_eq_nil in E as [E1 E2].
    apply elem_of_cons in Hx as [->|Hx]; auto.
Qed.

Lemma flat_map_agree {A B} (f g : A -> list B) xs :
  (forall x, x ∈ xs -> f x = g x) -> flat_map f xs = flat_map g xs.
Proof.
  induction xs as [|y xs IH]; simpl; intros E; [done|].
  rewrite E, IH; [done| |by left]. intros x Hx. apply E. by right.
Qed.

Lemma sealed_fields previousHash now (n : nat) (b b' : Block.t) :
  Block.seal SHA256 previousHash now (Z.of_nat n) b = Normal b' ->
  Block.height b' = JNum (Z.of_nat n)
  /\ Block.body b' = Block.body b
  /\ Block.previousBlockHash b'
     = (if is_null previousHash then Block.previousBlockHash b else previousHash)
  /\ (exists s, Block.hash b' = JStr (SHA256 s))
  /\ (Block.hash b = JNull ->
      Block.validate SHA256 b' = (Resolved true, b')
      /\ exists s, Block.JSON_stringify (Block.with_hash JNull b') = Normal s).
Proof.
  rewrite seal_setHeight. intros Hs.
  pose proof Hs as (s & Hj & ->)%setHash_Normal. simpl.
  repeat split; eauto.
  - unfold Block.setPreviousHash. by destruct (is_null previousHash).
  - unfold Block.setPreviousHash. by destruct (is_null previousHash).
  - eapply setHash_validate; [|done]. by rewrite seal_hash_unset.
  - exists s. rewrite with_hash_twice, with_hash_null_id; [done|].
    by rewrite seal_hash_unset.
Qed.


Lemma valid_hash (b : Block.t) :
  fst (Block.validate SHA256 b) = Resolved true ->
  exists s, Block.JSON_stringify (Block.with_hash JNull b) = Normal s
            /\ Block.hash b = JStr (SHA256 s).
Proof.
  destruct (Block.JSON_stringify (Block.with_hash JNull b)) as [s|e] eqn:Hs.
  - rewrite (validate_Normal _ _ _ Hs). simpl. intros [= E].
    apply bool_decide_eq_true_1 in E. eauto.
  - by rewrite (validate_Throw _ _ _ Hs).
Qed.


End addBlock_facts.

(** ** Chains built by appends *)

Section built_facts.

Variable SHA256 : string -> string.
Variable encode : json -> string.

Local Abbreviation consistent := (consistent SHA256).
Local Abbreviation sealed_at := (sealed_at SHA256).

Lemma block_at_Some st i (b : Block.t) :
  block_at st i = Some b <->
  exists l, chain st !! i = Some l /\ heap st !! l = Some b.
Proof. unfold block_at. apply bind_Some. Qed.

Lemma block_at_frame l x st i :
  l ∉ chain st -> block_at (with_heap (<[l:=x]> (heap st)) st) i = block_at st i.
Proof. intros Hl. unfold block_at. simpl. by apply lookup_block_frame. Qed.

Lemma block_at_pushed_old l b' st i :
  l ∉ chain st -> (i < length (chain st))%nat ->
  block_at (pushed l b' st) i = block_at st i.
Proof.
  intros Hl Hi. unfold block_at. simpl. rewrite lookup_app_l by done.
  by apply lookup_block_frame.
Qed.

Lemma block_at_pushed_new l b' st :
  block_at (pushed l b' st) (length (chain st)) = Some b'.
Proof.
  unfold block_at. simpl. rewrite lookup_app_r, Nat.sub_diag by done.
  simpl. by rewrite lookup_insert_eq.
Qed.

Lemma consistent_stored n st l :
  consistent n st -> l ∈ chain st -> is_Some (heap st !! l).
Proof.
  intros (Hlen & _ & _ & _ & Hb) (i & Hi)%list_elem_of_lookup_1.
  destruct (Hb i) as (b & (l' & Hl' & Hh)%block_at_Some & _).
  { apply lookup_lt_Some in Hi. lia. }
  simplify_eq. eauto.
Qed.

Lemma consistent_previousHash n st :
  consistent n st ->
  exists p s, block_at st n = Some p /\ previousHash st = Block.hash p
              /\ Block.hash p = JStr (SHA256 s).
Proof.
  intros (Hlen & _ & _ & _ & Hb).
  destruct (Hb n) as (p & Hp & _ & (s & _ & Hs) & _); [done|].
  exists p, s. repeat split; [done| |done].
  unfold previousHash. rewrite Hlen. simpl. unfold block_at in Hp. by rewrite Hp.
Qed.

Lemma consistent_frame n st l x :
  l ∉ chain st -> consistent n st ->
  consistent n (with_heap (<[l:=x]> (heap st)) st).
Proof.
  intros Hl (Hlen & Hh & Hlim & Hnd & Hb). repeat split; try done.
  intros i Hi. destruct (Hb i Hi) as (b & Hbi & Hht & Hs & Hp).
  exists b. rewrite block_at_frame by done. repeat split; try done.
  destruct i as [|j]; [done|]. by rewrite block_at_frame.
Qed.

(** In a consistent chain every turn of [validateChain] finds nothing. *)
Lemma consistent_checkable n st i :
  consistent n st -> (i < length (chain st))%nat ->
  checkable (heap st) (chain st) i.
Proof.
  intros (Hlen & _ & _ & _ & Hb) Hi.
  destruct (Hb i) as (b & (l & Hl & Hh)%block_at_Some & _ & (s & Hs & _) & _);
    [lia|].
  by exists l, b, s.
Qed.

Lemma consistent_issues n st i :
  consistent n st -> (i <= n)%nat ->
  issues_at SHA256 (heap st) (chain st) i = [].
Proof.
  intros (Hlen & _ & _ & _ & Hb) Hi.
  destruct (Hb i Hi) as (b & Hbi & _ & (s & Hs & Hhash) & Hp).
  unfold issues_at. unfold block_at in Hbi. rewrite Hbi.
  rewrite (validate_Normal _ _ _ Hs), Hhash. simpl.
  unfold strict_eq at 1. rewrite bool_decide_eq_true_2 by done. simpl.
  destruct i as [|j]; simpl; [done|].
  destruct Hp as (p & Hpj & Hprev). unfold block_at in Hpj. rewrite Hpj.
  rewrite Hprev. unfold strict_eq. rewrite bool_decide_eq_true_2 by done.
  by rewrite andb_false_r.
Qed.

Lemma consistent_valid n st :
  consistent n st -> validateChain SHA256 st = (Resolved [], st).
Proof.
  intros Hc. rewrite validateChain_checkable.
  - f_equal. f_equal. pose proof Hc as (Hlen & _).
    erewrite flat_map_agree with (g := fun _ => []).
    + by induction (seq _ _).
    + intros i Hi%elem_of_seq. eapply consistent_issues; [done|lia].
  - intros i Hi. by eapply consistent_checkable.
Qed.

(** A newly constructed block can always be sealed. *)
Lemma stringify_new ph now n data :
  (ph = JNull \/ exists s, ph = JStr s) ->
  exists s, Block.JSON_stringify
              (Block.with_height (JNum n)
                 (Block.setTimeStamp now
                    (Block.setPreviousHash ph (Block.new encode data))))
            = Normal s.
Proof.
  intros [->|[s ->]]; unfold Block.JSON_stringify; simpl; eauto.
Qed.

Lemma seal_new ph now (n : nat) data :
  (ph = JNull \/ exists s, ph = JStr s) ->
  exists b', Block.seal SHA256 ph now (Z.of_nat n) (Block.new encode data)
             = Normal b'.
Proof.
  intros Hph. rewrite seal_setHeight.
  destruct (stringify_new ph now (Z.of_nat n) data Hph) as [s Hs].
  unfold Block.setHash, Block._hashBlock. rewrite Hs. simpl. eauto.
Qed.

Lemma pushed_consistent n st l now (b b' : Block.t) :
  consistent n st -> l ∉ chain st ->
  Block.hash b = JNull ->
  Block.seal SHA256 (previousHash st) now (Z.of_nat (length (chain st))) b
  = Normal b' ->
  consistent (S n) (pushed l b' st).
Proof.
  intros Hc Hl Hh Hseal. pose proof Hc as (Hlen & Hht & Hlim & Hnd & Hb).
  destruct (sealed_fields _ _ _ _ _ _ Hseal) as (Hb1 & _ & Hb3 & _ & Hb5).
  destruct (Hb5 Hh) as (Hv & _). clear Hb5.
  split; [simpl; rewrite length_app; simpl; lia|].
  split; [simpl; lia|]. split; [done|].
  split.
  { simpl. apply NoDup_app. split; [done|]. split; [|apply NoDup_singleton].
    intros x Hx ->%list_elem_of_singleton. done. }
  intros i Hi. destruct (decide (i = S n)) as [->|Hne].
  - exists b'. rewrite <- Hlen at 1. split; [apply block_at_pushed_new|].
    split; [by rewrite Hb1, Hlen|]. split.
    + apply (f_equal fst) in Hv. simpl in Hv. by apply valid_hash in Hv.
    + destruct (consistent_previousHash _ _ Hc) as (p & s & Hp & Hph & Hs).
      exists p. rewrite block_at_pushed_old by (done || lia). split; [done|].
      rewrite Hb3, Hph, Hs. reflexivity.
  - destruct (Hb i) as (bi & Hbi & Hs1 & Hs2 & Hs3); [lia|].
    exists bi. rewrite block_at_pushed_old by (done || lia).
    repeat split; try done.
    destruct i as [|j]; [done|]. rewrite block_at_pushed_old by (done || lia).
    done.
Qed.

Lemma fresh_not_stored n st :
  consistent n st -> fresh (dom (heap st)) ∉ chain st.
Proof.
  intros Hc Hin. apply (consistent_stored _ _ _ Hc) in Hin.
  apply elem_of_dom in Hin. by apply is_fresh in Hin.
Qed.

(** An append of a newly constructed block to a consistent chain succeeds
    and leaves a consistent chain. *)
Lemma append_new_consistent n st now data :
  consistent n st ->
  exists l st', append_new SHA256 encode now data st = (Resolved l, st')
                /\ consistent (S n) st'.
Proof.
  intros Hc. unfold append_new, alloc.
  set (l := fresh (dom (heap st))).
  set (st1 := with_heap (<[l:=Block.new encode data]> (heap st)) st).
  assert (l ∉ chain st) as Hl by by eapply fresh_not_stored.
  assert (consistent n st1) as Hc1 by by apply consistent_frame.
  destruct (consistent_previousHash _ _ Hc1) as (p & s & _ & Hph & Hs).
  destruct (seal_new (previousHash st1) now (length (chain st1)) data)
    as [b' Hseal]; [right; exists (SHA256 s); congruence|].
  exists l, (pushed l b' st1). split.
  - erewrite addBlock_not_stored with (errors := []); [done|done| | |done].
    + by rewrite (consistent_valid _ _ Hc1).
    + simpl. by rewrite lookup_insert_eq.
  - by apply (pushed_consistent n st1 l now (Block.new encode data) b').
Qed.

Lemma new_consistent now h : consistent 0 (new SHA256 encode now h).
Proof.
  unfold new, initializeChain, constructor, alloc. simpl.
  set (l := fresh (dom h)).
  set (st1 := mkState (<[l:=Block.new encode genesis_data]> h) [] (-1)
                (helpers.minuteToSeconds 5)).
  destruct (seal_new (previousHash st1) now (length (chain st1)) genesis_data)
    as [b' Hseal]; [by left|].
  erewrite addBlock_not_stored with (errors := []) (st := st1); simpl;
    [| apply not_elem_of_nil | done | by rewrite lookup_insert_eq | done ].
  destruct (sealed_fields _ _ _ _ _ _ Hseal) as (Hb1 & _ & Hb3 & _ & Hb5).
  destruct (Hb5 eq_refl) as (Hv & _).
  repeat split; try done.
  - apply NoDup_singleton.
  - intros i Hi. assert (i = 0%nat) as -> by lia. exists b'. split.
    + unfold block_at. simpl. by rewrite lookup_insert_eq.
    + split; [done|]. split; [|done].
      apply (f_equal fst) in Hv. simpl in Hv. by apply valid_hash in Hv.
Qed.

Lemma built_consistent n st : built SHA256 encode n st -> consistent n st.
Proof.
  induction 1 as [now h|n st now data block st' _ IH Happ].
  - apply new_consistent.
  - destruct (append_new_consistent _ _ now data IH) as (l & st'' & E & Hc).
    congruence.
Qed.

End built_facts.

(** ** Chains under appends of any block objects *)

Section appended_facts.

Variable SHA256 : string -> string.
Variable encode : json -> string.

Lemma consistent_linked n st : consistent SHA256 n st -> linked n st.
Proof.
  intros (Hlen & Hh & _ & Hnd & Hb). repeat split; try done.
  intros i Hi. destruct (Hb i Hi) as (b & Hbi & Hht & (s & _ & Hs) & Hp).
  exists b. repeat split; eauto.
Qed.

Lemma linked_frame n st l x :
  l ∉ chain st -> linked n st -> linked n (with_heap (<[l:=x]> (heap st)) st).
Proof.
  intros Hl (Hlen & Hh & Hnd & Hb). repeat split; try done.
  intros i Hi. destruct (Hb i Hi) as (b & Hbi & Hht & Hs & Hp).
  exists b. rewrite block_at_frame by done. repeat split; try done.
  destruct i as [|j]; [done|]. by rewrite block_at_frame.
Qed.

Lemma linked_previousHash n st :
  linked n st ->
  exists p s, block_at st n = Some p /\ previousHash st = Block.hash p
              /\ Block.hash p = JStr s.
Proof.
  intros (Hlen & _ & _ & Hb).
  destruct (Hb n) as (p & Hp & _ & (s & Hs) & _); [done|].
  exists p, s. repeat split; [done| |done].
  unfold previousHash. rewrite Hlen. simpl. unfold block_at in Hp. by rewrite Hp.
Qed.

(** A successful append of an object that the chain does not hold pushes
    the sealed object. *)
Lemma addBlock_Resolved now block st l st' :
  block ∉ chain st ->
  _addBlock SHA256 now block st = (Resolved l, st') ->
  exists b b',
    heap st !! block = Some b
    /\ Block.seal SHA256 (previousHash st) now
         (Z.of_nat (length (chain st))) b = Normal b'
    /\ fst (validateChain SHA256 st) = Resolved []
    /\ l = block /\ st' = pushed block b' st.
Proof.
  intros Hn E. destruct (heap st !! block) as [b|] eqn:Hl.
  - destruct (Block.seal SHA256 (previousHash st) now
                (Z.of_nat (length (chain st))) b) as [b'|e'] eqn:Hseal.
    + exists b, b'. rewrite (addBlock_sealed _ _ _ _ _ _ Hl Hseal) in E.
      rewrite validateChain_frame in E by done.
      destruct (validateChain SHA256 st) as [[errors|e] st1] eqn:Hv;
        simpl in E; [|done].
      apply validateChain_Resolved in Hv as (-> & _).
      destruct (decide (errors = [])) as [->|Hne].
      * simpl in E. by simplify_eq.
      * by rewrite bool_decide_eq_false_2 in E.
    + destruct (addBlock_unsealed _ _ _ _ _ _ Hl Hseal) as [x Hx].
      by rewrite Hx in E.
  - unfold _addBlock in E. by rewrite Hl in E.
Qed.

Lemma pushed_linked n st l now (b b' : Block.t) :
  linked n st -> l ∉ chain st ->
  Block.seal SHA256 (previousHash st) now (Z.of_nat (length (chain st))) b
  = Normal b' ->
  linked (S n) (pushed l b' st).
Proof.
  intros Hc Hl Hseal. pose proof Hc as (Hlen & Hht & Hnd & Hb).
  destruct (sealed_fields _ _ _ _ _ _ Hseal) as (Hb1 & _ & Hb3 & Hb4 & _).
  split; [simpl; rewrite length_app; simpl; lia|].
  split; [simpl; lia|].
  split.
  { simpl. apply NoDup_app. split; [done|]. split; [|apply NoDup_singleton].
    intros x Hx ->%list_elem_of_singleton. done. }
  intros i Hi. destruct (decide (i = S n)) as [->|Hne].
  - exists b'. rewrite <- Hlen at 1. split; [apply block_at_pushed_new|].
    split; [by rewrite Hb1, Hlen|]. split.
    + destruct Hb4 as [s Hs]. eauto.
    + destruct (linked_previousHash _ _ Hc) as (p & s & Hp & Hph & Hs).
      exists p. rewrite block_at_pushed_old by (done || lia). split; [done|].
      rewrite Hb3, Hph, Hs. reflexivity.
  - destruct (Hb i) as (bi & Hbi & Hs1 & Hs2 & Hs3); [lia|].
    exists bi. rewrite block_at_pushed_old by (done || lia).
    repeat split; try done.
    destruct i as [|j]; [done|]. rewrite block_at_pushed_old by (done || lia).
    done.
Qed.

Lemma appended_linked n st : appended SHA256 encode n st -> linked n st.
Proof.
  induction 1 as [now h|n st l x _ IH Hl|n st now block st' _ IH Hl E].
  - apply consistent_linked, new_consistent.
  - by apply linked_frame.
  - apply addBlock_Resolved in E as (b & b' & _ & Hseal & _ & _ & ->); [|done].
    by eapply pushed_linked.
Qed.

Lemma fresh_not_linked n st : linked n st -> fresh (dom (heap st)) ∉ chain st.
Proof.
  intros (Hlen & _ & _ & Hb) (i & Hi)%list_elem_of_lookup_1.
  destruct (Hb i) as (b & (l' & Hl' & Hh)%block_at_Some & _).
  { apply lookup_lt_Some in Hi. lia. }
  simplify_eq. apply (is_fresh (dom (heap st))). apply elem_of_dom. eauto.
Qed.

(** The appends of newly constructed blocks are among them. *)
Lemma built_appended n st : built SHA256 encode n st -> appended SHA256 encode n st.
Proof.
  induction 1 as [now h|n st now data block st' _ IH Happ].
  - apply appended_new.
  - unfold append_new, alloc in Happ.
    pose proof (fresh_not_linked _ _ (appended_linked _ _ IH)) as Hl.
    set (l := fresh (dom (heap st))) in *.
    pose proof Happ as (_ & _ & _ & _ & _ & -> & _)%addBlock_Resolved; [|done].
    apply (appended_add SHA256 encode n
             (with_heap (<[l:=Block.new encode data]> (heap st)) st) now l st');
      [|done|exact Happ].
    by apply appended_outside.
Qed.

End appended_facts.

(** ** Appending a block that the chain already holds *)

Section stored_candidate.

Variable SHA256 : string -> string.
Variable encode : json -> string.

Lemma flat_map_not_nil {A B} (f : A -> list B) xs x :
  x ∈ xs -> f x <> [] -> flat_map f xs <> [].
Proof. intros Hx Hf E. by apply Hf, (flat_map_nil f xs x). Qed.

(** With a digest that does not collide, handing [_addBlock] a block that
    the chain holds, whose hash is set, is always rejected: the successful
    appends are those of objects that the chain does not hold. *)
Lemma addBlock_stored_block_rejected now block st (b : Block.t) :
  block ∈ chain st ->
  heap st !! block = Some b ->
  Block.hash b <> JNull ->
  (forall b1, Block.no_collision SHA256 b1 (Block.with_hash JNull b1)) ->
  exists e st', _addBlock SHA256 now block st = (Rejected e, st').
Proof.
  intros (i & Hi)%list_elem_of_lookup_1 Hl Hh Hinj.
  destruct (Block.seal SHA256 (previousHash st) now
              (Z.of_nat (length (chain st))) b) as [b'|e'] eqn:Hseal.
  - rewrite (addBlock_sealed _ _ _ _ _ _ Hl Hseal).
    destruct (validateChain SHA256 _) as [[errors|e] st1] eqn:Hv; [|eauto].
    apply validateChain_Resolved in Hv as (-> & -> & _).
    rewrite bool_decide_eq_false_2; [simpl; eauto|].
    apply (flat_map_not_nil _ _ i).
    { apply elem_of_seq. apply lookup_lt_Some in Hi. simpl. lia. }
    unfold issues_at. simpl. rewrite Hi. simpl. rewrite lookup_insert_eq.
    rewrite seal_setHeight in Hseal.
    set (b1 := Block.with_height _ _) in Hseal.
    assert (Block.hash b1 <> JNull) as Hh1
      by (unfold b1; by rewrite seal_hash_unset).
    by rewrite (setHash_again SHA256 b1 b' Hh1 Hseal (Hinj b1)).
  - destruct (addBlock_unsealed _ _ _ _ _ _ Hl Hseal) as [x ->]. eauto.
Qed.


End stored_candidate.

(** ** The properties of the chain *)

Section chain_properties.

Variable SHA256 : string -> string.
Variable encode : json -> string.


(** A freshly constructed chain has height [0] and one block, which has no
    previous hash, and validates without issues; so does every chain built
    from it. *)
Lemma new_chain_is_valid now h :
  let st := new SHA256 encode now h in
  height st = 0 /\ length (chain st) = 1%nat
  /\ (exists b, block_at st 0 = Some b /\ Block.previousBlockHash b = JNull)
  /\ validateChain SHA256 st = (Resolved [], st).
Proof.
  intros st. pose proof (new_consistent SHA256 encode now h) as Hc.
  pose proof Hc as (Hlen & Hh & _). repeat split; try done.
  - unfold st, new, initializeChain, constructor, alloc. simpl.
    set (l := fresh (dom h)).
    set (st1 := mkState (<[l:=Block.new encode genesis_data]> h) [] (-1)
                  (helpers.minuteToSeconds 5)).
    destruct (seal_new SHA256 encode (previousHash st1) now
                (length (chain st1)) genesis_data) as [b' Hseal]; [by left|].
    erewrite addBlock_not_stored with (errors := []) (st := st1); simpl;
      [| apply not_elem_of_nil | done | by rewrite lookup_insert_eq | done ].
    exists b'. split.
    + unfold block_at. simpl. by rewrite lookup_insert_eq.
    + by destruct (sealed_fields _ _ _ _ _ _ Hseal) as (_ & _ & -> & _).
  - by eapply consistent_valid.
Qed.

Lemma built_chain_is_valid n st :
  built SHA256 encode n st -> validateChain SHA256 st = (Resolved [], st).
Proof. intros Hc%built_consistent. by eapply consistent_valid. Qed.



Lemma issues_at_block_at st j :
  issues_at SHA256 (heap st) (chain st) j
  = match block_at st j with
    | Some b =>
        (match fst (Block.validate SHA256 b) with
         | Resolved true => []
         | _ => [not_valid b]
         end)
        ++ match j with
           | O => []
           | S k =>
               match block_at st k with
               | Some pb =>
                   if truthy (Block.previousBlockHash b)
                      && negb (strict_eq (Block.previousBlockHash b) (Block.hash pb))
                   then [wrongly_linked b pb]
                   else []
               | None => []
               end
           end
    | None => []
    end.
Proof. unfold issues_at, block_at. by destruct j. Qed.

Lemma flat_map_empty {A B} (f : A -> list B) xs :
  (forall y, y ∈ xs -> f y = []) -> flat_map f xs = [].
Proof.
  induction xs as [|y xs IH]; simpl; intros Hf; [done|].
  rewrite Hf, IH; [done| |by left]. intros z Hz. apply Hf. by right.
Qed.



End chain_properties.

(** ** Appending *)

Section append_properties.

Variable SHA256 : string -> string.


(** When [validateChain] resolves, nothing has changed. *)
Lemma validateChain_resolved_unchanged st errors st' :
  validateChain SHA256 st = (Resolved errors, st') -> st' = st.
Proof. by intros (-> & _)%validateChain_Resolved. Qed.

End append_properties.

(** ** Rejections *)

Section rejections.

Variable SHA256 : string -> string.

Local Abbreviation step := (validateChain_step SHA256).
Local Abbreviation run := (validateChain_loop SHA256).

Lemma step_settles chain i h log rej :
  exists h' log' rej',
    step chain i (h, log, rej) = (h', log', rej')
    /\ (rej' = rej \/ exists e, e ∈ validateChain_rejections /\ rej' = settle rej e).
Proof.
  destruct (chain !! i ≫= (h !!.)) as [b|] eqn:Hb.
  - apply bind_Some in Hb as (l & Hi & Hb).
    destruct (Block.JSON_stringify (Block.with_hash JNull b)) as [s|e] eqn:Hs.
    + rewrite (step_Normal _ _ _ _ _ _ _ _ _ Hi Hb Hs). eauto 6.
    + rewrite (step_Throw _ _ _ _ _ _ _ _ _ Hi Hb Hs).
      apply JSON_stringify_Throw in Hs as ->.
      do 3 eexists. split; [done|]. right. eexists. split; [|done].
      unfold validateChain_rejections. set_solver.
  - unfold validateChain_step.
    destruct (chain !! i) as [l|]; simpl in *; [rewrite Hb|];
      (do 3 eexists; split; [done|]; right; eexists; split; [|done];
       unfold validateChain_rejections; set_solver).
Qed.

Lemma run_rejection chain ixs h log rej h' log' e :
  run chain ixs (h, log, rej) = (h', log', Some e) ->
  rej = Some e \/ e ∈ validateChain_rejections.
Proof.
  revert h log rej. induction ixs as [|i ixs IH]; intros h log rej E.
  - rewrite loop_nil in E. left. congruence.
  - rewrite loop_cons in E.
    destruct (step_settles chain i h log rej)
      as (h1 & log1 & rej1 & E1 & [->|(e0 & He0 & ->)]);
      rewrite E1 in E; apply IH in E as [E|E]; auto.
    destruct rej; simpl in E; [by left|]. right. congruence.
Qed.

Lemma validateChain_rejection st e st' :
  validateChain SHA256 st = (Rejected e, st') -> e ∈ validateChain_rejections.
Proof.
  unfold validateChain.
  destruct (validateChain_loop _ _ _ _) as [[h log] [e0|]] eqn:E; [|done].
  intros [= <- <-]. by apply run_rejection in E as [?|?].
Qed.

Lemma addBlock_rejection now l st e st' :
  _addBlock SHA256 now l st = (Rejected e, st') ->
  JS.name e = "AddNewBlockError" /\ JS.message e ∈ addBlock_messages.
Proof.
  unfold _addBlock, addBlock_messages.
  destruct (heap st !! l) as [b|]; [|intros [= <- <-]; split; [done|set_solver]].
  unfold Block.setHeight. destruct (_ <? 0);
    [intros [= <- <-]; split; [done|set_solver]|].
  unfold Block.setHash, Block._hashBlock.
  destruct (Block.JSON_stringify _) as [s|e0] eqn:Hs; simpl.
  - destruct (validateChain SHA256 _) as [[errors|e1] st1] eqn:Hv.
    + destruct (negb _); intros [= <- <-]. split; [done|set_solver].
    + intros [= <- <-]. apply validateChain_rejection in Hv. split; [done|].
      unfold validateChain_rejections in Hv.
      apply elem_of_cons in Hv as [->|Hv];
        [|apply elem_of_cons in Hv as [->|Hv]; [|by apply elem_of_nil in Hv]];
        simpl; set_solver.
  - apply JSON_stringify_Throw in Hs as ->. intros [= <- <-].
    split; [done|set_solver].
Qed.

(** No rejection of [_addBlock] turns into the expiry rejection. *)
Lemma addBlock_rejection_not_Expired now l st e st' :
  _addBlock SHA256 now l st = (Rejected e, st') ->
  as_SubmitStarError e <> Expired.
Proof.
  intros [Hname Hmsg]%addBlock_rejection. unfold as_SubmitStarError.
  rewrite Hname. simpl. unfold SubmitStarError, Expired, SubmitStarError.
  intros E. apply (f_equal JS.message) in E. simpl in E.
  apply (inj (String.app _)) in E. rewrite E in Hmsg. vm_compute in Hmsg.
  repeat (apply elem_of_cons in Hmsg as [Hmsg|Hmsg]; [discriminate Hmsg|]).
  by apply elem_of_nil in Hmsg.
Qed.

End rejections.

(** ** [submitStar] *)

Section submitStar_properties.

Variable SHA256 : string -> string.
Variable encode : json -> string.
Variable verify : string -> string -> string -> completion bool.

Local Abbreviation submitStar := (submitStar SHA256 encode verify).
Local Abbreviation verify_and_append := (verify_and_append SHA256 encode verify).

(** [submitStar] is the freshness test followed by the signature check and
    the append. *)
Lemma submitStar_unfold now now' address message signature star st :
  submitStar now now' address message signature star st
  = if elapsed_exceeds (parseInt (helpers.getTimeStamp now))
         (parseInt_opt (JS.split ":" message !! 1%nat)) (limitTime st)
    then (Rejected Expired, st)
    else verify_and_append now' address message signature star st.
Proof.
  unfold Blockchain.submitStar, Blockchain.verify_and_append, append_new.
  destruct (elapsed_exceeds _ _ _); [done|].
  by destruct (verify message address signature) as [[]|].
Qed.

Lemma verify_and_append_not_Expired now' address message signature star st :
  (forall e, verify message address signature = Throw e ->
             as_SubmitStarError e <> Expired) ->
  fst (verify_and_append now' address message signature star st)
  <> Rejected Expired.
Proof.
  intros Hthrow. unfold Blockchain.verify_and_append.
  destruct (verify message address signature) as [[]|e] eqn:Hv; simpl.
  - unfold append_new. destruct (alloc _ st) as [block st1].
    destruct (_addBlock SHA256 now' block st1) as [[l|e] st2] eqn:E; simpl;
      [done|].
    intros [= Hexp]. by eapply addBlock_rejection_not_Expired.
  - intros Hexp. discriminate Hexp.
  - intros [= Hexp]. by eapply Hthrow.
Qed.

(** What [submitStar] does with any challenge from which no issue time can
    be parsed: the comparison with [NaN] is false, so the expiry rejection
    is skipped without a time having been checked, and the outcome is that
    of the signature check and the append; it is rejected as a bad
    signature, with the chain and the store as before, when the oracle
    refuses the signature. No rejection for a malformed challenge exists. *)
Theorem submitStar_unparsable_challenge now now' address message signature star st :
  parseInt_opt (JS.split ":" message !! 1%nat) = None ->
  submitStar now now' address message signature star st
  = verify_and_append now' address message signature star st
  /\ (verify message address signature = Normal false ->
      submitStar now now' address message signature star st
      = (Rejected BadSignature, st)).
Proof.
  intros Hm. rewrite submitStar_unfold, Hm.
  assert (elapsed_exceeds (parseInt (helpers.getTimeStamp now)) None (limitTime st)
          = false) as -> by by destruct (parseInt _).
  split; [done|]. intros Hv. unfold Blockchain.verify_and_append. by rewrite Hv.
Qed.

(** C5. For a challenge whose issue time [m] parses, a clock reading
    whose seconds [c] parse and the limit of five minutes: [submitStar]
    rejects as expired, leaving everything as it was, when [c - m > 300];
    otherwise the submission passes the freshness test and goes on to the
    signature check; and (unless the signature oracle itself throws the
    expiry error) the call is rejected as expired exactly when
    [c - m > 300]; so it is not at [c - m = 300] and is at [c - m = 301]. *)
Theorem submitStar_expired_iff now now' address message signature star st c m :
  limitTime st = helpers.minuteToSeconds 5 ->
  parseInt (helpers.getTimeStamp now) = Some c ->
  parseInt_opt (JS.split ":" message !! 1%nat) = Some m ->
  (c - m > 300 ->
     submitStar now now' address message signature star st
     = (Rejected Expired, st))
  /\ (c - m <= 300 ->
      submitStar now now' address message signature star st
      = verify_and_append now' address message signature star st)
  /\ ((forall e, verify message address signature = Throw e ->
                 as_SubmitStarError e <> Expired) ->
      (fst (submitStar now now' address message signature star st)
       = Rejected Expired
       <-> c - m > 300)).
Proof.
  intros Hlim Hc Hm. rewrite submitStar_unfold, Hlim, Hc, Hm.
  unfold elapsed_exceeds, helpers.minuteToSeconds.
  destruct (Z.ltb_spec (5 * 60) (c - m)) as [Hlt|Hle].
  - split; [done|]. split; [lia|]. intros _. split; [lia|done].
  - split; [lia|]. split; [done|]. intros Hthrow. split; [|lia].
    intros E. by apply verify_and_append_not_Expired in E.
Qed.

(** C8. A submission whose challenge is fresh and whose signature the
    oracle refuses is rejected as a bad signature, and the chain (its array,
    its height, its blocks and the whole store) is as before the call. *)
Theorem submitStar_bad_signature now now' address message signature star st c m :
  parseInt (helpers.getTimeStamp now) = Some c ->
  parseInt_opt (JS.split ":" message !! 1%nat) = Some m ->
  c - m <= limitTime st ->
  verify message address signature = Normal false ->
  submitStar now now' address message signature star st
  = (Rejected BadSignature, st).
Proof.
  intros Hc Hm Hfresh Hv. rewrite submitStar_unfold, Hc, Hm.
  unfold elapsed_exceeds. destruct (Z.ltb_spec (limitTime st) (c - m)); [lia|].
  unfold Blockchain.verify_and_append. by rewrite Hv.
Qed.

End submitStar_properties.

(** ** [getStarsByWalletAddress] *)

Section getStars_properties.

Variable decode : jsval -> completion json.

Local Abbreviation collect_stars := (collect_stars decode).
Local Abbreviation getStarsByWalletAddress := (getStarsByWalletAddress decode).






End getStars_properties.

(** ** Sealing and tamper detection *)

Section Block_properties.

Variable SHA256 : string -> string.

(** C6 (amended). A block whose hash is unset when it is sealed passes
    [validate] at once; and once a serialized field of the sealed block has
    been changed to another value among [null], the integers and the
    strings (the field values of [jsval] that can be serialized), the hash
    being left alone, [validate] resolves [false], provided the digest does
    not collide on the two serializations. *)
Theorem seal_validate_roundtrip previousHash now h (b sealed tampered : Block.t) :
  Block.hash b = JNull ->
  Block.seal SHA256 previousHash now h b = Normal sealed ->
  Block.hash tampered = Block.hash sealed ->
  tampered <> sealed ->
  (exists s, Block.JSON_stringify (Block.with_hash JNull tampered) = Normal s) ->
  Block.no_collision SHA256
    (Block.with_hash JNull sealed) (Block.with_hash JNull tampered) ->
  Block.validate SHA256 sealed = (Resolved true, sealed)
  /\ Block.validate SHA256 tampered = (Resolved false, tampered).
Proof.
  intros Hh [_ Hseal]%seal_Normal Hkeep Hne [s Hs] Hinj.
  assert (Block.validate SHA256 sealed = (Resolved true, sealed)) as Hv.
  { eapply setHash_validate; [|done]. by rewrite seal_hash_unset. }
  split; [done|]. by eapply validate_mutation.
Qed.

(** C10. A second [setHash] on a block whose hash is already set gives a
    block that does not pass [validate], provided the digest does not
    collide on the serialization with the first hash and the one with the
    hash cleared. *)
Theorem setHash_is_not_repeatable (b b' : Block.t) :
  Block.hash b <> JNull ->
  Block.setHash SHA256 b = Normal b' ->
  Block.no_collision SHA256 b (Block.with_hash JNull b) ->
  Block.validate SHA256 b' = (Resolved false, b').
Proof. apply setHash_again. Qed.

End Block_properties.

(** ** The properties on concrete chains *)

Section examples.

Import Example.

Local Abbreviation H := Double.SHA256.

Lemma no_collision_Double (b1 b2 : Block.t) : Block.no_collision H b1 b2.
Proof. intros s1 s2 _ _ E. exact E. Defined.

Lemma built_genesis_only : built H Double.encode 0 genesis_only.
Proof. apply built_new. Defined.

Lemma built_one_star : built H Double.encode 1 one_star.
Proof.
  apply (built_append H Double.encode 0 genesis_only 1604321300000 polaris 1%nat).
  - apply built_genesis_only.
  - vm_compute. reflexivity.
Defined.


(** A candidate that was sealed before: [_addBlock] commits it, although
    validating the chain with the candidate reports an issue. *)
Lemma addBlock_presealed_candidate_is_committed :
  exists b' st' issue,
    Block.setHash H (Block.new Double.encode polaris) = Normal b'
    /\ _addBlock H 1604321400000 1%nat
         (snd (alloc b' genesis_only)) = (Resolved 1%nat, st')
    /\ fst (validateChain H st') = Resolved [issue].
Proof.
  let r := eval vm_compute in (Block.setHash H (Block.new Double.encode polaris)) in
  match r with Normal ?b => exists b end.
  let r := eval vm_compute in
    (snd (_addBlock H 1604321400000 1%nat
            (snd (alloc (default star_block
                           (match Block.setHash H (Block.new Double.encode polaris) with
                            | Normal b => Some b
                            | Throw _ => None
                            end))
                    genesis_only)))) in
  exists r.
  eexists. split; [vm_compute; reflexivity|].
  split; vm_compute; reflexivity.
Qed.




(** C4. The challenge ["abc"], which has no time in it, with a signature
    the oracle accepts: no time is parsed, and yet the submission is not
    rejected; the star is appended to the chain. *)
Lemma submitStar_accepts_challenge_without_time :
  parseInt_opt (JS.split ":" "abc" !! 1%nat) = None
  /\ exists block st',
       submitStar H Double.encode Double.accept 1604321300000 1604321300000
         "addr1" "abc" "sig" (JsonStr "Polaris") genesis_only
       = (Resolved block, st')
       /\ chain st' = chain genesis_only ++ [block]
       /\ height st' = height genesis_only + 1.
Proof.
  split; [by vm_compute|]. eexists _, _. split; [by vm_compute|].
  split; by vm_compute.
Qed.

Lemma submitStar_unparsable_challenge_witness :
  parseInt_opt (JS.split ":" "abc" !! 1%nat) = None
  /\ submitStar H Double.encode Double.refuse 1604321300000 1604321300000
       "addr1" "abc" "sig" (JsonStr "Polaris") genesis_only
     = (Rejected BadSignature, genesis_only).
Proof.
  assert (H1 : parseInt_opt (JS.split ":" "abc" !! 1%nat) = None)
    by (vm_compute; reflexivity).
  split; [exact H1|].
  apply (submitStar_unparsable_challenge H Double.encode Double.refuse
           1604321300000 1604321300000 "addr1" "abc" "sig" (JsonStr "Polaris")
           genesis_only H1).
  reflexivity.
Defined.

(** The boundary of the freshness test: 300 seconds pass, 301 do not. *)
Lemma submitStar_expired_iff_witness :
  (fst (submitStar H Double.encode Double.accept 1604321534999 1604321535000
          "addr1" "addr1:1604321234:starRegistry" "sig" (JsonStr "Polaris")
          genesis_only)
   = Rejected Expired <-> 1604321534 - 1604321234 > 300)
  /\ submitStar H Double.encode Double.accept 1604321535000 1604321535000
       "addr1" "addr1:1604321234:starRegistry" "sig" (JsonStr "Polaris")
       genesis_only
     = (Rejected Expired, genesis_only).
Proof.
  split.
  - apply (submitStar_expired_iff H Double.encode Double.accept
             1604321534999 1604321535000 "addr1"
             "addr1:1604321234:starRegistry" "sig" (JsonStr "Polaris")
             genesis_only 1604321534 1604321234);
      [vm_compute; reflexivity..|].
    intros e E. discriminate E.
  - apply (submitStar_expired_iff H Double.encode Double.accept
             1604321535000 1604321535000 "addr1"
             "addr1:1604321234:starRegistry" "sig" (JsonStr "Polaris")
             genesis_only 1604321535 1604321234);
      [vm_compute; reflexivity..|lia].
Defined.

Lemma submitStar_bad_signature_witness :
  submitStar H Double.encode Double.refuse 1604321300000 1604321300000
    "addr1" "addr1:1604321234:starRegistry" "sig" (JsonStr "Polaris")
    genesis_only
  = (Rejected BadSignature, genesis_only).
Proof.
  apply (submitStar_bad_signature H Double.encode Double.refuse
           1604321300000 1604321300000 "addr1"
           "addr1:1604321234:starRegistry" "sig" (JsonStr "Polaris")
           genesis_only 1604321300 1604321234);
    [vm_compute; reflexivity..| |reflexivity].
  vm_compute. intros E. discriminate E.
Defined.


(** From a new chain to a notarized star: the challenge is issued, the
    submission is appended at height 1, the owner's records are the star,
    and the chain validates without issues. *)
Example notarize_polaris :
  requestMessageOwnershipVerification 1604321234567 "addr1"
  = Resolved "addr1:1604321234:starRegistry"
  /\ fst (submitStar H Double.encode Double.accept 1604321299000 1604321300000
            "addr1" "addr1:1604321234:starRegistry" "sig" (JsonStr "Polaris")
            genesis_only)
     = Resolved 1%nat
  /\ snd (submitStar H Double.encode Double.accept 1604321299000 1604321300000
            "addr1" "addr1:1604321234:starRegistry" "sig" (JsonStr "Polaris")
            genesis_only)
     = one_star
  /\ Block.height <$> block_at one_star 1 = Some (JNum 1)
  /\ getStarsByWalletAddress Double.decode "addr1" one_star
     = Resolved [JsonObj [("owner", JsonStr "addr1"); ("star", JsonStr "Polaris")]]
  /\ getStarsByWalletAddress Double.decode "addr2" one_star = Resolved []
  /\ fst (validateChain H one_star) = Resolved [].
Proof. repeat split; vm_compute; reflexivity. Qed.

(** A block that already has a hash, sealed: it does not pass [validate]. *)
Lemma seal_of_hashed_block_is_not_valid :
  exists sealed,
    Block.seal H JNull 1604321300000 1
      (Block.with_hash (JStr "abc") (Block.new Double.encode polaris))
    = Normal sealed
    /\ Block.validate H sealed = (Resolved false, sealed).
Proof.
  let r := eval vm_compute in
    (Block.seal H JNull 1604321300000 1
       (Block.with_hash (JStr "abc") (Block.new Double.encode polaris))) in
  match r with Normal ?b => exists b end.
  split; vm_compute; reflexivity.
Qed.

Lemma seal_validate_roundtrip_witness :
  Block.validate H star_block = (Resolved true, star_block)
  /\ Block.validate H (Block.with_body (JStr "00") star_block)
     = (Resolved false, Block.with_body (JStr "00") star_block).
Proof.
  apply (seal_validate_roundtrip H (Block.hash genesis_block) 1604321300000 1
           (Block.new Double.encode polaris) star_block
           (Block.with_body (JStr "00") star_block)).
  - reflexivity.
  - vm_compute. reflexivity.
  - reflexivity.
  - vm_compute. intros E. discriminate E.
  - eexists. vm_compute. reflexivity.
  - apply no_collision_Double.
Defined.

Lemma setHash_is_not_repeatable_witness :
  exists b',
    Block.setHash H star_block = Normal b'
    /\ Block.validate H b' = (Resolved false, b').
Proof.
  destruct (Block.setHash H star_block) as [b'|e] eqn:E;
    [|vm_compute in E; discriminate E].
  exists b'. split; [reflexivity|].
  apply (setHash_is_not_repeatable H star_block b').
  - vm_compute. intros E'. discriminate E'.
  - exact E.
  - apply no_collision_Double.
Defined.

(** C9, on a chain one of whose blocks cannot be serialized:
    [validateChain] rejects, and the hash of that block, which was set, is
    left cleared. *)
Theorem validateChain_rejection_clears_hash :
  exists e st',
    validateChain H corrupted = (Rejected e, st')
    /\ JS.name e = "ValidateBlockError"
    /\ Block.hash <$> block_at corrupted 1 = Some (Block.hash star_block)
    /\ Block.hash star_block <> JNull
    /\ Block.hash <$> block_at st' 1 = Some JNull
    /\ blocks st' <> blocks corrupted.
Proof.
  eexists _, _. split; [by vm_compute|]. split; [done|].
  split; [by vm_compute|]. split; [by vm_compute|]. split; [by vm_compute|].
  vm_compute. intros E. discriminate E.
Qed.

End examples.

(** * Further facts: the other operations *)

Import Notary.

(** ** Decimal numbers and [parseInt] *)

Section decimal_facts.

Lemma digit_val_digit c :
  digit_char c = true ->
  exists k, digit_val 10 c = Some k /\ 0 <= k < 10.
Proof.
  destruct c as [[] [] [] [] [] [] [] []]; intros Hc; vm_compute in Hc;
    try discriminate Hc; eexists; (split; [vm_compute; reflexivity|lia]).
Qed.

Lemma parse_digits_Some s a :
  all_chars digit_char s = true -> 0 <= a ->
  exists v, parse_digits 10 s (Some a) = Some v
            /\ v = a * 10 ^ Z.of_nat (String.length s) + dec_value s
            /\ 0 <= dec_value s < 10 ^ Z.of_nat (String.length s).
Proof.
  revert a. induction s as [|c s IH]; intros a Hs Ha.
  - exists a. unfold dec_value. simpl. split; [done|]. lia.
  - simpl in Hs. apply andb_prop in Hs as [Hc Hs].
    destruct (digit_val_digit c Hc) as (k & Hk & Hk10).
    unfold dec_value. cbn [parse_digits]. rewrite Hk. simpl default.
    destruct (IH (10 * a + k) Hs) as (v & Hv & Hv' & Hrange); [lia|].
    destruct (IH (10 * 0 + k) Hs) as (v0 & Hv0 & Hv0' & _); [lia|].
    exists v. rewrite Hv, Hv0. simpl default. split; [done|].
    cbn [String.length]. rewrite Nat2Z.inj_succ, Z.pow_succ_r by lia.
    split; [lia|nia].
Qed.
Lemma parse_digits_app s1 s2 a :
  all_chars digit_char s1 = true ->
  parse_digits 10 (s1 +:+ s2) (Some a)
  = parse_digits 10 s2 (parse_digits 10 s1 (Some a)).
Proof.
  revert a. induction s1 as [|c s1 IH]; intros a Hs; [done|].
  simpl in Hs. apply andb_prop in Hs as [Hc Hs].
  destruct (digit_val_digit c Hc) as (k & Hk & _).
  rewrite append_String. cbn [parse_digits]. rewrite Hk. by apply IH.
Qed.

Lemma uint_digit_chars d : all_chars digit_char (NilEmpty.string_of_uint d) = true.
Proof. induction d; simpl; done. Qed.

Lemma parse_uint d a :
  parse_digits 10 (NilEmpty.string_of_uint d) (Some a)
  = Some (Z.of_N (DecimalPos.Unsigned.of_lu (Decimal.rev d))
          + a * 10 ^ Z.of_N (DecimalPos.Unsigned.usize d)).
Proof.
  revert a.
  induction d as [|d IH|d IH|d IH|d IH|d IH|d IH|d IH|d IH|d IH|d IH]; intros a;
    [simpl; f_equal; lia|..];
    cbn [NilEmpty.string_of_uint parse_digits];
    match goal with
    | |- context [digit_val 10 ?c] =>
        let v := eval vm_compute in (digit_val 10 c) in
        change (digit_val 10 c) with v
    end;
    unfold Decimal.rev; cbn [Decimal.revapp]; rewrite DecimalPos.Unsigned.of_lu_revapp;
    cbn [DecimalPos.Unsigned.of_lu DecimalPos.Unsigned.usize DecimalPos.Unsigned.hd DecimalPos.Unsigned.tl];
    rewrite IH; f_equal;
    rewrite !N2Z.inj_add, !N2Z.inj_mul, N2Z.inj_pow, N2Z.inj_succ,
      Z.pow_succ_r by lia;
    unfold default, from_option, id; simpl Z.of_N; ring.
Qed.

Lemma string_of_Z_pos p :
  string_of_Z (Z.pos p) = NilEmpty.string_of_uint (Pos.to_uint p).
Proof.
  unfold string_of_Z. simpl. unfold NilZero.string_of_uint.
  pose proof (DecimalPos.Unsigned.to_uint_nonnil p). by destruct (Pos.to_uint p).
Qed.

(** A non-negative number is printed in digits and reads back. *)
Lemma string_of_Z_digit_chars n :
  0 <= n -> all_chars digit_char (string_of_Z n) = true.
Proof.
  destruct n as [|p|p]; intros Hn; [done| |lia].
  rewrite string_of_Z_pos. apply uint_digit_chars.
Qed.

Lemma dec_value_string_of_Z n : 0 <= n -> dec_value (string_of_Z n) = n.
Proof.
  destruct n as [|p|p]; intros Hn; [done| |lia].
  rewrite string_of_Z_pos. unfold dec_value. rewrite parse_uint. simpl default.
  rewrite <- DecimalPos.Unsigned.of_uint_alt, DecimalPos.Unsigned.of_to. simpl. lia.
Qed.

Lemma substring_split (P : ascii -> bool) n s :
  (n <= String.length s)%nat ->
  exists r, s = String.substring 0 n s +:+ r
            /\ String.length (String.substring 0 n s) = n
            /\ String.length r = (String.length s - n)%nat
            /\ (all_chars P s = true ->
                all_chars P (String.substring 0 n s) = true
                /\ all_chars P r = true).
Proof.
  revert s. induction n as [|n IH]; intros s Hn.
  - exists s. destruct s; simpl; repeat split; try done; lia.
  - destruct s as [|c s]; simpl in Hn; [lia|].
    destruct (IH s) as (r & Hr1 & Hr2 & Hr3 & Hr4); [lia|].
    exists r. cbn [String.substring String.length all_chars].
    rewrite append_String, <- Hr1, Hr2.
    split; [done|]. split; [done|]. split; [done|].
    intros [Hc Hs]%andb_prop. destruct (Hr4 Hs) as [-> ->]. by rewrite Hc.
Qed.

Lemma is_ws_digit c : digit_char c = true -> is_ws c = false.
Proof.
  destruct c as [[] [] [] [] [] [] [] []]; intros Hc; vm_compute in Hc;
    try discriminate Hc; reflexivity.
Qed.

Lemma skip_ws_digit c s :
  digit_char c = true -> skip_ws (String c s) = String c s.
Proof.
  intros Hc. destruct s as [|c2 [|c3 s]];
    destruct c as [[] [] [] [] [] [] [] []]; vm_compute in Hc;
    try discriminate Hc; reflexivity.
Qed.

Lemma parse_digits_None c s :
  digit_char c = true ->
  parse_digits 10 (String c s) None = parse_digits 10 (String c s) (Some 0).
Proof.
  intros Hc. destruct (digit_val_digit c Hc) as (k & Hk & _).
  cbn [parse_digits]. by rewrite Hk.
Qed.

(** [parseInt] on a non-empty string of decimal digits. *)
Lemma parseInt_digits s :
  s <> EmptyString -> all_chars digit_char s = true ->
  parseInt s = Some (dec_value s).
Proof.
  intros Hne Hs. destruct s as [|c s]; [done|].
  destruct (parse_digits_Some (String c s) 0 Hs) as (v & Hv & Hv' & _); [lia|].
  simpl in Hs. apply andb_prop in Hs as [Hc Hs].
  assert (parse_digits 10 (String c s) None = Some (dec_value (String c s))) as Hp.
  { rewrite parse_digits_None by done. unfold dec_value. by rewrite Hv. }
  rewrite <- Hp.
  unfold parseInt. rewrite (skip_ws_digit c s Hc).
  assert (forall x : option Z, Z.mul 1 <$> x = x) as Hid.
  { intros [x|]; simpl; [|done]. f_equal. lia. }
  destruct c as [[] [] [] [] [] [] [] []]; vm_compute in Hc;
    try discriminate Hc; try apply Hid.
  destruct s as [|c2 s]; [done|].
  simpl in Hs. apply andb_prop in Hs as [Hc2 _].
  destruct c2 as [[] [] [] [] [] [] [] []]; vm_compute in Hc2;
    try discriminate Hc2; apply Hid.
Qed.

(** Dropping the last three digits divides by a thousand. *)
Lemma parseInt_drop_last_three n :
  1000 <= n ->
  parseInt (slice_drop_last 3 (string_of_Z n)) = Some (n / 1000).
Proof.
  intros Hn. set (s := string_of_Z n).
  assert (all_chars digit_char s = true) as Hs
    by (apply string_of_Z_digit_chars; lia).
  assert (dec_value s = n) as Hval by (apply dec_value_string_of_Z; lia).
  destruct (parse_digits_Some s 0 Hs) as (_ & _ & _ & Hrange); [lia|].
  assert (3 < String.length s)%nat as Hlen.
  { destruct (String.length s) as [|[|[|[|k]]]]; simpl in Hrange; lia. }
  unfold slice_drop_last.
  destruct (substring_split digit_char (String.length s - 3) s)
    as (r & Hr1 & Hr2 & Hr3 & Hr4); [lia|].
  destruct (Hr4 Hs) as [Hs1 Hsr].
  set (s1 := String.substring 0 (String.length s - 3) s) in *.
  rewrite parseInt_digits; [|by destruct s1; simpl in Hr2; [lia|]|done].
  f_equal.
  destruct (parse_digits_Some s1 0 Hs1) as (v1 & Hv1 & Hv1' & _); [lia|].
  destruct (parse_digits_Some r v1 Hsr) as (v & Hv & Hv' & Hr_range);
    [destruct (parse_digits_Some s1 0 Hs1) as (? & ? & ? & ?); lia|].
  assert (dec_value s = v) as Hsv.
  { unfold dec_value at 1. rewrite Hr1, parse_digits_app, Hv1, Hv by done.
    done. }
  replace (String.length r) with 3%nat in * by lia.
  change (10 ^ Z.of_nat 3) with 1000 in *.
  rewrite <- Hval, Hsv, Hv', Hv1'. simpl (0 * _).
  apply Z.div_unique with (r := dec_value r); lia.
Qed.

End decimal_facts.

(** ** Challenges *)

Section challenge_facts.

Lemma split_not_nil sep s : JS.split sep s <> [].
Proof.
  destruct s as [|c s]; simpl; [done|].
  destruct (Ascii.eqb c sep); [done|]. by destruct (JS.split sep s).
Qed.

(** Splitting at a separator splits what is before it and what is after
    it. *)
Lemma split_app sep a r :
  JS.split sep (a +:+ String sep r) = JS.split sep a ++ JS.split sep r.
Proof.
  induction a as [|c a IH].
  - rewrite append_Empty. simpl. by rewrite Ascii.eqb_refl.
  - rewrite append_String. simpl. rewrite IH.
    destruct (Ascii.eqb c sep); [done|].
    pose proof (split_not_nil sep a). by destruct (JS.split sep a).
Qed.

Lemma split_free_of sep s : free_of sep s = true -> JS.split sep s = [s].
Proof.
  induction s as [|c s IH]; [done|]. unfold free_of. simpl.
  intros [Hc Hs]%andb_prop. apply negb_true_iff in Hc. rewrite Hc.
  by rewrite (IH Hs).
Qed.

Lemma split_second_of_longer sep a r x :
  JS.split sep a !! 1%nat = Some x ->
  JS.split sep (a +:+ String sep r) !! 1%nat = Some x.
Proof. intros Hx. rewrite split_app. by apply lookup_app_l_Some. Qed.

Lemma digits_free_of_colon s :
  all_chars digit_char s = true -> free_of ":" s = true.
Proof.
  unfold free_of. induction s as [|c s IH]; [done|]. simpl.
  intros [Hc Hs]%andb_prop. rewrite (IH Hs), andb_true_r.
  destruct c as [[] [] [] [] [] [] [] []]; vm_compute in Hc;
    try discriminate Hc; reflexivity.
Qed.

Lemma getTimeStamp_digit_chars now :
  0 <= now -> all_chars digit_char (helpers.getTimeStamp now) = true.
Proof.
  intros Hnow. unfold helpers.getTimeStamp, slice_drop_last.
  destruct (substring_split digit_char
              (String.length (string_of_Z now) - 3) (string_of_Z now))
    as (r & _ & _ & _ & Hr); [lia|].
  by apply Hr, string_of_Z_digit_chars.
Qed.

(** The challenge of an address without a colon splits into the address,
    the time stamp and the tag. *)
Lemma challenge_split now address :
  0 <= now -> free_of ":" address = true ->
  JS.split ":" (address +:+ ":" +:+ helpers.getTimeStamp now +:+ ":starRegistry")
  = [address; helpers.getTimeStamp now; "starRegistry"].
Proof.
  intros Hnow Ha.
  change (":" +:+ ?x) with (String ":" x).
  change ":starRegistry" with (String ":" "starRegistry").
  rewrite !split_app, (split_free_of _ _ Ha).
  rewrite (split_free_of ":" (helpers.getTimeStamp now)); [done|].
  by apply digits_free_of_colon, getTimeStamp_digit_chars.
Qed.

End challenge_facts.

(** ** The clock, the challenge and the submission *)

Section notarization_flow.

Variable SHA256 : string -> string.
Variable encode : json -> string.
Variable verify : string -> string -> string -> completion bool.

Lemma getTimeStamp_first_second now :
  0 <= now < 1000 -> helpers.getTimeStamp now = EmptyString.
Proof.
  intros Hnow.
  assert (forallb (fun k => String.eqb (helpers.getTimeStamp (Z.of_nat k)) EmptyString)
            (seq 0 1000) = true) as Hall by (vm_compute; reflexivity).
  rewrite forallb_forall in Hall.
  specialize (Hall (Z.to_nat now)). rewrite Z2Nat.id in Hall by lia.
  apply String.eqb_eq, Hall, in_seq. lia.
Qed.

Lemma parseInt_getTimeStamp now :
  1000 <= now -> parseInt (helpers.getTimeStamp now) = Some (now / 1000).
Proof. apply parseInt_drop_last_three. Qed.

(** X1. [getTimeStamp] is the clock reading in whole seconds: from the
    first second on, [parseInt] reads [now / 1000] back from it; within the
    first second it is the empty string, which [parseInt] reads as [NaN]. *)
Theorem getTimeStamp_in_seconds now :
  0 <= now ->
  parseInt (helpers.getTimeStamp now)
  = if now <? 1000 then None else Some (now / 1000).
Proof.
  intros Hnow. destruct (Z.ltb_spec now 1000).
  - by rewrite getTimeStamp_first_second.
  - by apply parseInt_getTimeStamp.
Qed.

(** X2. The challenge issued for an address without a colon carries its
    issue time: what [submitStar] parses out of it is the second of issue. *)
Theorem issued_challenge_carries_issue_time now address :
  1000 <= now ->
  free_of ":" address = true ->
  exists message,
    requestMessageOwnershipVerification now address = Resolved message
    /\ parseInt_opt (JS.split ":" message !! 1%nat) = Some (now / 1000).
Proof.
  intros Hnow Ha. eexists. split; [reflexivity|].
  rewrite challenge_split by (done || lia). simpl.
  by apply parseInt_getTimeStamp.
Qed.

(** X3. For an address with a colon in it, the time [submitStar] parses
    out of the challenge is the second part of the address, whenever the
    challenge was issued. *)
Theorem challenge_of_address_with_colon now address part :
  JS.split ":" address !! 1%nat = Some part ->
  exists message,
    requestMessageOwnershipVerification now address = Resolved message
    /\ parseInt_opt (JS.split ":" message !! 1%nat) = parseInt part.
Proof.
  intros Hpart. eexists. split; [reflexivity|].
  change (":" +:+ ?x) with (String ":" x).
  by rewrite (split_second_of_longer _ _ _ _ Hpart).
Qed.

(** X4. A challenge for an address with a colon in it whose second part
    [parseInt] reads as [NaN] (no digit after the white space and the sign
    it skips) never expires: whenever it was issued and whenever it is
    submitted, [submitStar] goes on to the signature check. *)
Theorem colon_address_challenge_never_expires now now' t0 address part
    signature star st :
  JS.split ":" address !! 1%nat = Some part ->
  parseInt part = None ->
  let message :=
    address +:+ ":" +:+ helpers.getTimeStamp t0 +:+ ":starRegistry" in
  submitStar SHA256 encode verify now now' address message signature star st
  = verify_and_append SHA256 encode verify now' address message signature
      star st.
Proof.
  intros Hpart Hnan message. rewrite submitStar_unfold.
  unfold message at 1. change (":" +:+ ?x) with (String ":" x).
  rewrite (split_second_of_longer _ _ _ _ Hpart). cbn [parseInt_opt].
  rewrite Hnan. unfold elapsed_exceeds.
  by destruct (parseInt (helpers.getTimeStamp now)).
Qed.

Lemma append_new_chain now data st r st' :
  append_new SHA256 encode now data st = (r, st') ->
  (exists e, r = Rejected e /\ chain st' = chain st /\ height st' = height st)
  \/ (exists block, r = Resolved block /\ chain st' = chain st ++ [block]
                    /\ height st' = height st + 1).
Proof.
  unfold append_new, alloc. intros E.
  apply addBlock_outcome in E as [(e & -> & _ & Hc & Hh)|(-> & Hc & Hh)];
    simpl in *; eauto 6.
Qed.


End notarization_flow.

(** ** The cached height *)

Section height_facts.

Variable SHA256 : string -> string.
Variable encode : json -> string.
Variable verify : string -> string -> string -> completion bool.

Lemma validateChain_chain st :
  chain (snd (validateChain SHA256 st)) = chain st
  /\ height (snd (validateChain SHA256 st)) = height st.
Proof.
  unfold validateChain. by destruct (validateChain_loop _ _ _ _) as [[h log] rej].
Qed.

Lemma submitStar_chain now now' address message signature star st r st' :
  submitStar SHA256 encode verify now now' address message signature star st
  = (r, st') ->
  (exists e, r = Rejected e /\ chain st' = chain st /\ height st' = height st)
  \/ (exists block, r = Resolved block /\ chain st' = chain st ++ [block]
                    /\ height st' = height st + 1).
Proof.
  rewrite submitStar_unfold. destruct (elapsed_exceeds _ _ _).
  { intros [= <- <-]. left. eauto. }
  unfold verify_and_append.
  destruct (verify message address signature) as [[]|e].
  - destruct (append_new _ _ _ _ _) as [[l|e] st1] eqn:E;
      apply append_new_chain in E as [(e' & ? & Hc & Hh)|(l' & ? & Hc & Hh)];
      simplify_eq; intros [= <- <-]; [right|left]; eauto.
  - intros [= <- <-]. left. eauto.
  - intros [= <- <-]. left. eauto.
Qed.

(** X6. The cached [height] is the index of the last block, and every
    operation keeps it so: [_addBlock], whatever the candidate and whether
    it is committed or rejected, [submitStar], and [validateChain]. *)
Theorem cached_height_is_kept st :
  height_cached st ->
  (forall now block, height_cached (snd (_addBlock SHA256 now block st)))
  /\ (forall now now' address message signature star,
        height_cached
          (snd (submitStar SHA256 encode verify now now' address message
                  signature star st)))
  /\ height_cached (snd (validateChain SHA256 st)).
Proof.
  unfold height_cached. intros Hst. repeat split.
  - intros now block.
    destruct (_addBlock SHA256 now block st) as [r st'] eqn:E. simpl.
    apply addBlock_outcome in E as [(e & _ & _ & -> & ->)|(_ & -> & ->)];
      [done|]. rewrite length_app. simpl. lia.
  - intros now now' address message signature star.
    destruct (submitStar _ _ _ _ _ _ _ _ _ _) as [r st'] eqn:E. simpl.
    apply submitStar_chain in E as [(e & _ & -> & ->)|(l & _ & -> & ->)];
      [done|]. rewrite length_app. simpl. lia.
  - by destruct (validateChain_chain st) as [-> ->].
Qed.

Lemma linked_height_cached n st : linked n st -> height_cached st.
Proof. intros (Hlen & Hh & _). unfold height_cached. lia. Qed.

End height_facts.

(** ** Looking blocks up *)

Section lookup_facts.

Variable SHA256 : string -> string.
Variable encode : json -> string.
Variable decode : jsval -> completion json.

Lemma find_unique {A} (P : A -> bool) (ls : list A) (k : nat) :
  (forall i x, ls !! i = Some x -> P x = true <-> i = k) ->
  List.find P ls = ls !! k.
Proof.
  revert k. induction ls as [|a ls IH]; intros k H; [done|]. simpl.
  destruct k as [|k].
  - by rewrite (proj2 (H 0%nat a eq_refl) eq_refl).
  - destruct (P a) eqn:Ha.
    + by apply (H 0%nat a eq_refl) in Ha.
    + simpl. apply IH. intros i x Hi. rewrite (H (S i) x Hi). lia.
Qed.

Lemma find_none {A} (P : A -> bool) (ls : list A) :
  (forall x, x ∈ ls -> P x = false) -> List.find P ls = None.
Proof.
  induction ls as [|a ls IH]; intros H; [done|]. simpl.
  rewrite (H a) by left. apply IH. intros x Hx. apply H. by right.
Qed.

Lemma head_filter_find {A} (P : A -> bool) (ls : list A) :
  head (List.filter P ls) = List.find P ls.
Proof. induction ls as [|a ls IH]; [done|]. simpl. by destruct (P a). Qed.

(** X7. On a chain made by appends, [getBlockByHeight] resolves with the
    block at that index, and with nothing for any other value: a number out
    of range, a string, [null]. *)
Theorem getBlockByHeight_is_the_index n st v :
  appended SHA256 encode n st ->
  getBlockByHeight v st
  = Resolved (match v with
              | JNum k => if 0 <=? k then chain st !! Z.to_nat k else None
              | _ => None
              end).
Proof.
  intros (Hlen & _ & _ & Hb)%appended_linked.
  unfold getBlockByHeight. rewrite head_filter_find. f_equal.
  assert (forall i l, chain st !! i = Some l ->
            exists b, heap st !! l = Some b /\ Block.height b = JNum (Z.of_nat i))
    as Hat.
  { intros i l Hi. destruct (Hb i) as (b & (l' & ? & ?)%block_at_Some & Hh & _).
    - apply lookup_lt_Some in Hi. lia.
    - simplify_eq. eauto. }
  assert (forall k : nat,
            List.find (fun l => match heap st !! l with
                                | Some p => strict_eq (Block.height p)
                                              (JNum (Z.of_nat k))
                                | None => false
                                end) (chain st) = chain st !! k) as Hk.
  { intros k. apply find_unique. intros i l Hi.
    destruct (Hat i l Hi) as (b & -> & ->). unfold strict_eq.
    rewrite bool_decide_eq_true. split; [intros [=]|intros ->]; [lia|done]. }
  assert (forall v', (forall k : nat, v' <> JNum (Z.of_nat k)) ->
            List.find (fun l => match heap st !! l with
                                | Some p => strict_eq (Block.height p) v'
                                | None => false
                                end) (chain st) = None) as Hnone.
  { intros v' Hv. apply find_none. intros l (i & Hi)%list_elem_of_lookup_1.
    destruct (Hat i l Hi) as (b & -> & ->). unfold strict_eq.
    apply bool_decide_eq_false. intros E. by apply (Hv i). }
  destruct v as [|k|s|k]; try (apply Hnone; intros; discriminate).
  destruct (Z.leb_spec 0 k) as [Hk0|Hk0].
  - specialize (Hk (Z.to_nat k)). by rewrite Z2Nat.id in Hk.
  - apply Hnone. intros i [=]. lia.
Qed.

Lemma sealed_hashes_differ n st i j (bi bj : Block.t) :
  consistent SHA256 n st ->
  block_at st i = Some bi -> block_at st j = Some bj ->
  Block.no_collision SHA256 (Block.with_hash JNull bi) (Block.with_hash JNull bj) ->
  Block.hash bi = Block.hash bj -> i = j.
Proof.
  intros (Hlen & _ & _ & _ & Hb) Hi Hj Hnc E.
  assert (i <= n /\ j <= n)%nat as [Hin Hjn].
  { apply block_at_Some in Hi as (? & ?%lookup_lt_Some & _).
    apply block_at_Some in Hj as (? & ?%lookup_lt_Some & _). lia. }
  destruct (Hb i Hin) as (b1 & ? & Hh1 & (s1 & Hs1 & Hd1) & _).
  destruct (Hb j Hjn) as (b2 & ? & Hh2 & (s2 & Hs2 & Hd2) & _).
  simplify_eq. rewrite Hd1, Hd2 in E. injection E as E.
  pose proof (Hnc s1 s2 Hs1 Hs2 E) as ->.
  pose proof (JSON_stringify_inj _ _ _ Hs1 Hs2) as Eb.
  apply (f_equal Block.height) in Eb. simpl in Eb.
  rewrite Hh1, Hh2 in Eb. injection Eb. lia.
Qed.

(** X8. On a chain built by appends of new blocks, as long as the digest
    does not collide on the chain's own blocks, [getBlockByHash] with the
    hash of the block at an index resolves with that very block; with a
    value that is the hash of no block it resolves with nothing. *)
Theorem getBlockByHash_finds_the_block n st :
  built SHA256 encode n st ->
  (forall i j bi bj, block_at st i = Some bi -> block_at st j = Some bj ->
     Block.no_collision SHA256
       (Block.with_hash JNull bi) (Block.with_hash JNull bj)) ->
  (forall i b, block_at st i = Some b ->
     getBlockByHash (Block.hash b) st = Resolved (chain st !! i))
  /\ (forall v, (forall i b, block_at st i = Some b -> Block.hash b <> v) ->
        getBlockByHash v st = Resolved None).
Proof.
  intros Hc%built_consistent Hnc. split.
  - intros i b Hi. unfold getBlockByHash. f_equal. apply find_unique.
    intros j l Hj.
    destruct (consistent_stored _ _ _ _ Hc (list_elem_of_lookup_2 _ _ _ Hj))
      as [bj Hl]. rewrite Hl. unfold strict_eq. rewrite bool_decide_eq_true.
    assert (block_at st j = Some bj) as Hbj by (apply block_at_Some; eauto).
    split.
    + intros E. eapply sealed_hashes_differ; eauto.
    + intros ->. congruence.
  - intros v Hv. unfold getBlockByHash. f_equal. apply find_none.
    intros l (i & Hi)%list_elem_of_lookup_1.
    destruct (consistent_stored _ _ _ _ Hc (list_elem_of_lookup_2 _ _ _ Hi))
      as [b Hl]. rewrite Hl. unfold strict_eq. apply bool_decide_eq_false.
    apply (Hv i). apply block_at_Some. eauto.
Qed.

(** X9. [getBData] by position, on a chain made by appends: the first block
    always rejects as the genesis block, whatever its body; every later
    block gives what decoding its body gives. *)
Theorem getBData_by_position n st i b :
  appended SHA256 encode n st ->
  block_at st i = Some b ->
  Block.getBData decode b
  = match i with
    | O => Rejected (Block.GetBlockDataError "This is Genesis Block!")
    | S _ =>
        match decode (Block.body b) with
        | Normal parsed => Resolved parsed
        | Throw e => Rejected (Block.GetBlockDataError (Error_toString e))
        end
    end.
Proof.
  intros (Hlen & _ & _ & Hb)%appended_linked Hi.
  assert (i <= n)%nat as Hin.
  { apply block_at_Some in Hi as (? & ?%lookup_lt_Some & _). lia. }
  destruct (Hb i Hin) as (b' & ? & Hh & _ & Hp). simplify_eq.
  unfold Block.getBData. rewrite Hh. destruct i as [|j].
  - simpl. by rewrite orb_true_r.
  - destruct Hp as (p & Hpj & ->).
    destruct (Hb j) as (p' & Hp' & _ & (s & Hs) & _); [lia|].
    rewrite Hpj in Hp'. injection Hp' as <-. rewrite Hs. simpl. by destruct (Z.of_nat (S j)) eqn:?; [lia|..].
Qed.

End lookup_facts.

(** ** The stars of an owner *)

Section stars_facts.

Variable SHA256 : string -> string.
Variable encode : json -> string.
Variable decode : jsval -> completion json.
Variable verify : string -> string -> string -> completion bool.

Lemma collect_stars_records h address ls rs stars :
  Forall2
    (fun l r =>
       exists b, h !! l = Some b
                 /\ Block.getBData decode b = Resolved (star_data r.1 r.2))
    ls rs ->
  collect_stars decode h address ls stars
  = Resolved (stars ++ (record_data <$>
                          List.filter (fun r => String.eqb r.1 address) rs)).
Proof.
  intros H. revert stars.
  induction H as [|l [o s] ls rs (b & Hl & Hd) _ IH]; intros stars.
  - simpl. by rewrite app_nil_r.
  - cbn [collect_stars]. rewrite Hl, Hd. simpl in *.
    destruct (String.eqb o address); rewrite IH; [|done].
    simpl. by rewrite <- (assoc_L (++)).
Qed.

(** X10. When the blocks after the first decode to the records [rs] (an
    owner and a star each), [getStarsByWalletAddress] resolves with the
    records of that owner and no other, in the order of the chain. *)
Theorem getStars_are_the_records_of_the_owner st rs address :
  holds_records decode st rs ->
  getStarsByWalletAddress decode address st
  = Resolved (record_data <$> List.filter (fun r => String.eqb r.1 address) rs).
Proof.
  intros H. unfold getStarsByWalletAddress.
  by rewrite (collect_stars_records _ _ _ rs).
Qed.

Lemma submitStar_Resolved now now' address message signature star st block st' :
  submitStar SHA256 encode verify now now' address message signature star st
  = (Resolved block, st') ->
  append_new SHA256 encode now' (star_data address star) st
  = (Resolved block, st').
Proof.
  rewrite submitStar_unfold. destruct (elapsed_exceeds _ _ _); [done|].
  unfold verify_and_append.
  destruct (verify message address signature) as [[]|e]; [|done..].
  by destruct (append_new _ _ _ _ _) as [[l|e] st1].
Qed.

Lemma records_frame (h : gmap loc Block.t) l x ls (rs : list (string * json)) :
  l ∉ ls ->
  Forall2
    (fun l r =>
       exists b, h !! l = Some b
                 /\ Block.getBData decode b = Resolved (star_data r.1 r.2))
    ls rs ->
  Forall2
    (fun l0 r =>
       exists b, <[l:=x]> h !! l0 = Some b
                 /\ Block.getBData decode b = Resolved (star_data r.1 r.2))
    ls rs.
Proof.
  intros Hl H. induction H as [|l0 r ls rs (b & Hb & Hd) _ IH]; [done|].
  apply not_elem_of_cons in Hl as [Hne Hl]. constructor; [|by apply IH].
  exists b. split; [|done]. by rewrite lookup_insert_ne.
Qed.

Lemma append_new_holds_records n st rs now data owner star block st' :
  linked n st ->
  holds_records decode st rs ->
  decode (JStr (encode data)) = Normal (star_data owner star) ->
  append_new SHA256 encode now data st = (Resolved block, st') ->
  holds_records decode st' (rs ++ [(owner, star)]).
Proof.
  intros Hlk Hrs Hdec E. unfold append_new, alloc in E.
  pose proof (fresh_not_linked _ _ Hlk) as Hfresh.
  set (l := fresh (dom (heap st))) in *.
  set (st1 := with_heap (<[l:=Block.new encode data]> (heap st)) st) in *.
  apply addBlock_Resolved in E as (b & b' & Hb & Hseal & _ & -> & ->); [|done].
  simpl in Hb. rewrite lookup_insert_eq in Hb. injection Hb as <-.
  destruct (linked_previousHash _ _ (linked_frame _ _ l (Block.new encode data)
                                       Hfresh Hlk))
    as (p & s & _ & Hph & Hps).
  fold st1 in Hph. rewrite Hph, Hps in Hseal.
  pose proof Hlk as (Hlen & _).
  change (length (chain st1)) with (length (chain st)) in Hseal.
  destruct (sealed_fields _ _ _ _ _ _ Hseal) as (Hh & Hbody & Hprev & _).
  unfold holds_records, pushed. simpl.
  unfold holds_records in Hrs.
  destruct (chain st) as [|g rest] eqn:Hchain; [done|]. simpl in *.
  apply not_elem_of_cons in Hfresh as [_ Hfresh].
  apply Forall2_app.
  - rewrite drop_0 in Hrs. by do 2 (apply records_frame; [done|]).
  - constructor; [|done]. exists b'. rewrite lookup_insert_eq. split; [done|].
    unfold Block.getBData. rewrite Hh, Hprev, Hbody. simpl. rewrite Hdec.
    by destruct (Z.of_nat (S (length rest))) eqn:?; [lia|..].
Qed.

(** X11. A star that [submitStar] has accepted is listed: afterwards
    [getStarsByWalletAddress] resolves, for every address, with the
    records of that address among the earlier ones followed by the new
    one, as long as decoding the body of the new block gives back what
    was encoded. *)
Theorem submitted_star_is_listed n st rs now now' address message signature
    star block st' a :
  appended SHA256 encode n st ->
  holds_records decode st rs ->
  decode (JStr (encode (star_data address star)))
  = Normal (star_data address star) ->
  submitStar SHA256 encode verify now now' address message signature star st
  = (Resolved block, st') ->
  getStarsByWalletAddress decode a st'
  = Resolved (record_data <$>
                List.filter (fun r => String.eqb r.1 a)
                            (rs ++ [(address, star)])).
Proof.
  intros Hlk%appended_linked Hrs Hdec E%submitStar_Resolved.
  unfold getStarsByWalletAddress.
  rewrite (collect_stars_records _ _ _ (rs ++ [(address, star)])); [done|].
  by eapply append_new_holds_records.
Qed.

End stars_facts.

(** ** What [validateChain] reports *)

Section report_facts.

Variable SHA256 : string -> string.
Variable encode : json -> string.
Variable verify : string -> string -> string -> completion bool.

Lemma checkable_block_at st i :
  checkable (heap st) (chain st) i <->
  exists b s, block_at st i = Some b
              /\ Block.JSON_stringify (Block.with_hash JNull b) = Normal s.
Proof.
  split.
  - intros (l & b & s & Hi & Hl & Hs). exists b, s. split; [|done].
    apply block_at_Some. eauto.
  - intros (b & s & (l & Hi & Hl)%block_at_Some & Hs). by exists l, b, s.
Qed.

Lemma validate_true_stringify (b : Block.t) :
  Block.validate SHA256 b = (Resolved true, b) ->
  exists s, Block.JSON_stringify (Block.with_hash JNull b) = Normal s.
Proof.
  intros Hv. destruct (Block.JSON_stringify (Block.with_hash JNull b)) as [s|e] eqn:Hs;
    [eauto|]. by rewrite (validate_Throw _ _ _ Hs) in Hv.
Qed.

Lemma sound_at_issues st i :
  sound_at SHA256 st i <->
  checkable (heap st) (chain st) i
  /\ issues_at SHA256 (heap st) (chain st) i = [].
Proof.
  unfold sound_at, issues_at. fold (block_at st i). split.
  - intros (b & Hb & Hv & Hlink). split.
    + apply checkable_block_at. destruct (validate_true_stringify _ Hv) as [s Hs].
      eauto.
    + rewrite Hb, Hv. simpl.
      destruct (before (chain st) i ≫= (heap st !!.)) as [p|]; [|done].
      destruct (truthy (Block.previousBlockHash b)) eqn:Ht; [|done].
      rewrite (Hlink p eq_refl eq_refl). unfold strict_eq.
      by rewrite bool_decide_eq_true_2.
  - intros [(b & s & Hb & Hs)%checkable_block_at Hnil]. rewrite Hb in Hnil.
    exists b. split; [done|].
    apply app_eq_nil in Hnil as [Hv Hlink]. split.
    + rewrite (validate_Normal _ _ _ Hs) in Hv |- *. simpl in Hv.
      by destruct (strict_eq _ _).
    + intros p Hp Ht. rewrite Hp, Ht in Hlink. simpl in Hlink.
      unfold strict_eq in Hlink.
      destruct (bool_decide_reflect
                  (Block.previousBlockHash b = Block.hash p)); done.
Qed.

(** X12. [validateChain] resolves with an empty log exactly when every
    block of the chain passes its own [validate] and, unless its previous
    hash is empty, names the hash of the block stored before it. *)
Theorem validateChain_no_issue_iff st :
  fst (validateChain SHA256 st) = Resolved []
  <-> forall i, (i < length (chain st))%nat -> sound_at SHA256 st i.
Proof.
  split.
  - destruct (validateChain SHA256 st) as [r st'] eqn:E. simpl. intros ->.
    apply validateChain_Resolved in E as (_ & Hnil & Hc).
    intros i Hi. apply sound_at_issues. split; [by apply Hc|].
    symmetry in Hnil. eapply flat_map_nil; [exact Hnil|].
    apply elem_of_seq. lia.
  - intros Hs. rewrite validateChain_checkable.
    + simpl. f_equal. apply flat_map_empty. intros i Hi%elem_of_seq.
      apply sound_at_issues, Hs. lia.
    + intros i Hi. by apply sound_at_issues, Hs.
Qed.

Lemma flat_map_two {B} (f : nat -> list B) (m i : nat) :
  (i < m)%nat ->
  (forall j, (j < m)%nat -> j <> i -> j <> S i -> f j = []) ->
  ((m <= S i)%nat -> f (S i) = []) ->
  flat_map f (seq 0 m) = f i ++ f (S i).
Proof.
  intros Hi Hf Hlast.
  replace m with (i + S (m - S i))%nat at 1 by lia.
  rewrite seq_app, flat_map_app. simpl.
  rewrite flat_map_empty; [|intros j Hj%elem_of_seq; apply Hf; lia]. simpl.
  f_equal. destruct (m - S i)%nat as [|k] eqn:Hk; simpl.
  - rewrite Hlast; [done|lia].
  - rewrite flat_map_empty; [by rewrite app_nil_r|].
    intros j Hj%elem_of_seq. apply Hf; lia.
Qed.

Lemma replaced_block_at st i l x j :
  NoDup (chain st) -> chain st !! i = Some l ->
  block_at (with_heap (<[l:=x]> (heap st)) st) j
  = if decide (j = i) then Some x else block_at st j.
Proof.
  intros Hnd Hi. unfold block_at. simpl. case_decide as Hj.
  - subst j. rewrite Hi. simpl. by rewrite lookup_insert_eq.
  - destruct (chain st !! j) as [lj|] eqn:Hlj; simpl; [|done].
    apply lookup_insert_ne. intros ->. apply Hj. by eapply NoDup_lookup.
Qed.

(** The report on a chain built by appends after the object of one block
    has been replaced: only the turns at that block and at the next one
    can add to the log. *)
Lemma replaced_validateChain n st i l (bm : Block.t) sm :
  consistent SHA256 n st ->
  chain st !! i = Some l ->
  Block.JSON_stringify (Block.with_hash JNull bm) = Normal sm ->
  let st' := with_heap (<[l:=bm]> (heap st)) st in
  validateChain SHA256 st'
  = (Resolved (issues_at SHA256 (heap st') (chain st') i
               ++ issues_at SHA256 (heap st') (chain st') (S i)), st').
Proof.
  intros Hc Hi Hsm st'. pose proof Hc as (Hlen & _ & _ & Hnd & Hb).
  assert (Hat : forall j, block_at st' j
                          = if decide (j = i) then Some bm else block_at st j)
    by (intros j; by apply replaced_block_at).
  assert (Hin : (i <= n)%nat) by (apply lookup_lt_Some in Hi; lia).
  rewrite validateChain_checkable.
  2:{ intros j Hj. apply checkable_block_at. rewrite Hat. case_decide; [eauto|].
      by apply checkable_block_at, (consistent_checkable SHA256 n). }
  f_equal. f_equal. change (length (chain st')) with (length (chain st)).
  rewrite Hlen. apply flat_map_two; [lia| |].
  - intros j Hj Hji HjSi.
    rewrite <- (consistent_issues SHA256 n st j Hc) by lia.
    rewrite (issues_at_block_at _ st' j), (issues_at_block_at _ st j).
    rewrite Hat, decide_False by done.
    destruct (block_at st j) as [bj|]; [|done]. f_equal.
    destruct j as [|k]; [done|]. rewrite Hat, decide_False by lia. done.
  - intros Hlast. rewrite issues_at_block_at, Hat, decide_False by lia.
    unfold block_at. rewrite lookup_ge_None_2; [done|lia].
Qed.

Lemma stringify_with_previousBlockHash (b : Block.t) s v :
  Block.JSON_stringify (Block.with_hash JNull b) = Normal s ->
  exists s', Block.JSON_stringify
               (Block.with_hash JNull (Block.with_previousBlockHash (JStr v) b))
             = Normal s'.
Proof.
  unfold Block.JSON_stringify. simpl.
  destruct (stringify_val (Block.height b)); simpl; [|done].
  destruct (stringify_val (Block.body b)); simpl; [|done].
  destruct (stringify_val (Block.time b)); simpl; [|done].
  eauto.
Qed.

Lemma consistent_next_issues n st i l (b bm : Block.t) :
  consistent SHA256 n st ->
  chain st !! i = Some l -> heap st !! l = Some b ->
  Block.hash bm = Block.hash b ->
  let st' := with_heap (<[l:=bm]> (heap st)) st in
  issues_at SHA256 (heap st') (chain st') (S i) = [].
Proof.
  intros Hc Hi Hl Hh st'. pose proof Hc as (Hlen & _ & _ & Hnd & Hb).
  rewrite issues_at_block_at.
  rewrite !(replaced_block_at st i l bm) by done.
  rewrite decide_False, decide_True by lia.
  destruct (block_at st (S i)) as [nb|] eqn:Hnb; [|done].
  assert (S i <= n)%nat as Hin.
  { apply block_at_Some in Hnb as (? & ?%lookup_lt_Some & _). lia. }
  destruct (Hb (S i) Hin) as (nb' & ? & _ & (s & Hs & Hhs) & (p & Hp & Hprev)).
  simplify_eq. rewrite (validate_Normal _ _ _ Hs), Hhs. simpl.
  unfold strict_eq at 1. rewrite bool_decide_eq_true_2 by done. simpl.
  assert (p = b) as ->.
  { apply block_at_Some in Hp as (l' & ? & ?). by simplify_eq. }
  rewrite Hprev, Hh. unfold strict_eq. rewrite bool_decide_eq_true_2 by done.
  by rewrite andb_false_r.
Qed.

(** X13. On a chain built by appends, once the previous hash of the block
    at index [i] has been overwritten out-of-band with another string (and
    the digest does not collide on the two serializations of the block),
    [validateChain] reports that block as not valid and, if it is not the
    first block and the new string is not empty, as wrongly linked; it
    reports nothing else. An emptied previous hash is not reported as a
    broken link. *)
Theorem tampered_previous_hash_report n st i l (b : Block.t) v :
  built SHA256 encode n st ->
  chain st !! i = Some l ->
  heap st !! l = Some b ->
  JStr v <> Block.previousBlockHash b ->
  Block.no_collision SHA256
    (Block.with_hash JNull b)
    (Block.with_hash JNull (Block.with_previousBlockHash (JStr v) b)) ->
  let bm := Block.with_previousBlockHash (JStr v) b in
  let tampered := with_heap (<[l:=bm]> (heap st)) st in
  validateChain SHA256 tampered
  = (Resolved
       (not_valid bm
        :: match i with
           | O => []
           | S j =>
               match block_at st j with
               | Some p =>
                   if String.eqb v EmptyString then []
                   else [wrongly_linked bm p]
               | None => []
               end
           end),
     tampered).
Proof.
  intros Hc%built_consistent Hi Hl Hne Hnc bm tampered.
  pose proof Hc as (Hlen & _ & _ & Hnd & Hb).
  assert (Hin : (i <= n)%nat) by (apply lookup_lt_Some in Hi; lia).
  destruct (Hb i Hin) as (b0 & Hb0 & _ & (s & Hs & Hhash) & Hprev).
  assert (b0 = b) as ->.
  { apply block_at_Some in Hb0 as (l0 & ? & ?). by simplify_eq. }
  destruct (stringify_with_previousBlockHash b s v Hs) as [sm Hsm].
  unfold tampered.
  rewrite (replaced_validateChain n st i l bm sm Hc Hi Hsm).
  rewrite (consistent_next_issues n st i l b bm Hc Hi Hl eq_refl), app_nil_r.
  f_equal. f_equal. rewrite issues_at_block_at.
  rewrite !(replaced_block_at st i l bm) by done. rewrite decide_True by done.
  rewrite (validate_mutation SHA256 b bm sm); try done.
  - simpl. f_equal. destruct i as [|j]; [done|].
    rewrite (replaced_block_at st (S j) l bm), decide_False by (done || lia).
    destruct Hprev as (p & -> & Hp).
    unfold strict_eq. rewrite bool_decide_eq_false_2 by congruence.
    rewrite andb_true_r. by destruct (String.eqb v EmptyString).
  - rewrite (validate_Normal _ _ _ Hs), Hhash. unfold strict_eq.
    by rewrite bool_decide_eq_true_2.
  - intros E. apply Hne. apply (f_equal Block.previousBlockHash) in E.
    by simpl in E.
Qed.

(** X14. On a chain built by appends, once the hash of the block at index
    [i] has been overwritten out-of-band with any other value,
    [validateChain] reports that block as not valid and the block after
    it, if there is one, as wrongly linked; it reports nothing else. (The
    digest of the block is taken not to be the empty string.) *)
Theorem tampered_hash_report n st i l (b : Block.t) v :
  built SHA256 encode n st ->
  chain st !! i = Some l ->
  heap st !! l = Some b ->
  v <> Block.hash b ->
  truthy (Block.hash b) = true ->
  let bm := Block.with_hash v b in
  let tampered := with_heap (<[l:=bm]> (heap st)) st in
  validateChain SHA256 tampered
  = (Resolved
       (not_valid bm
        :: match block_at st (S i) with
           | Some next => [wrongly_linked next bm]
           | None => []
           end),
     tampered).
Proof.
  intros Hc%built_consistent Hi Hl Hne Ht bm tampered.
  pose proof Hc as (Hlen & _ & _ & Hnd & Hb).
  assert (Hin : (i <= n)%nat) by (apply lookup_lt_Some in Hi; lia).
  destruct (Hb i Hin) as (b0 & Hb0 & _ & (s & Hs & Hhash) & Hprev).
  assert (b0 = b) as ->.
  { apply block_at_Some in Hb0 as (l0 & ? & ?). by simplify_eq. }
  assert (Block.with_hash JNull bm = Block.with_hash JNull b) as Hbm by done.
  unfold tampered.
  rewrite (replaced_validateChain n st i l bm s Hc Hi); [|by rewrite Hbm].
  f_equal. f_equal.
  set (st' := with_heap (<[l:=bm]> (heap st)) st).
  assert (issues_at SHA256 (heap st') (chain st') i = [not_valid bm]) as ->.
  { rewrite (issues_at_block_at _ st' i). unfold st'.
    rewrite (replaced_block_at st i l bm), decide_True by done.
    rewrite (validate_Normal SHA256 bm s) by (by rewrite Hbm). simpl.
    unfold strict_eq at 1. rewrite bool_decide_eq_false_2 by congruence.
    simpl. f_equal. destruct i as [|j]; [done|].
    rewrite (replaced_block_at st (S j) l bm), decide_False by (done || lia).
    destruct Hprev as (p & -> & ->). unfold strict_eq.
    rewrite bool_decide_eq_true_2 by done. by rewrite andb_false_r. }
  simpl. f_equal. rewrite (issues_at_block_at _ st' (S i)). lazy beta iota.
  unfold st'. rewrite !(replaced_block_at st i l bm) by done.
  rewrite decide_False, decide_True by lia.
  destruct (block_at st (S i)) as [nb|] eqn:Hnb; [|done].
  assert (S i <= n)%nat as HSin.
  { apply block_at_Some in Hnb as (? & ?%lookup_lt_Some & _). lia. }
  destruct (Hb (S i) HSin) as (nb' & ? & _ & (sn & Hsn & Hhn) & (p & Hp & Hpn)).
  simplify_eq. rewrite (validate_Normal _ _ _ Hsn), Hhn. simpl.
  unfold strict_eq at 1. rewrite bool_decide_eq_true_2 by done. simpl.
  rewrite Hpn, Ht. unfold strict_eq.
  by rewrite bool_decide_eq_false_2 by congruence.
Qed.

Lemma previousHash_frame l x st :
  l ∉ chain st ->
  previousHash (with_heap (<[l:=x]> (heap st)) st) = previousHash st.
Proof.
  intros Hl. unfold previousHash. simpl.
  destruct (length (chain st)) as [|j]; [done|]. simpl.
  by rewrite lookup_block_frame.
Qed.

Lemma checkable_fresh st :
  (forall i, (i < length (chain st))%nat -> checkable (heap st) (chain st) i) ->
  fresh (dom (heap st)) ∉ chain st.
Proof.
  intros Hc (i & Hi)%list_elem_of_lookup_1.
  destruct (Hc i) as (l & b & _ & Hl & Hb & _); [by eapply lookup_lt_Some|].
  simplify_eq. apply (is_fresh (dom (heap st))). apply elem_of_dom. eauto.
Qed.

(** X15. Once [validateChain] has something to report, the chain takes no
    more stars: a submission that passes the freshness test and the
    signature check is rejected with "Chain is invalid!", and the chain,
    its height and its blocks stay as they were. (The hash of the last
    block is taken to be a string.) *)
Theorem submitStar_on_reported_chain st errors now now' address message
    signature star :
  fst (validateChain SHA256 st) = Resolved errors ->
  errors <> [] ->
  (previousHash st = JNull \/ exists s, previousHash st = JStr s) ->
  elapsed_exceeds (parseInt (helpers.getTimeStamp now))
    (parseInt_opt (JS.split ":" message !! 1%nat)) (limitTime st) = false ->
  verify message address signature = Normal true ->
  exists st',
    submitStar SHA256 encode verify now now' address message signature star st
    = (Rejected (SubmitStarError "Chain is invalid!"), st')
    /\ chain st' = chain st /\ height st' = height st
    /\ forall i, block_at st' i = block_at st i.
Proof.
  intros Hv Herr Hph Hfresh Hsig.
  rewrite submitStar_unfold, Hfresh. unfold verify_and_append. rewrite Hsig.
  unfold append_new, alloc.
  assert (fresh (dom (heap st)) ∉ chain st) as Hl.
  { destruct (validateChain SHA256 st) as [r st0] eqn:E. simpl in Hv. subst r.
    apply validateChain_Resolved in E as (_ & _ & Hc). by apply checkable_fresh. }
  set (l := fresh (dom (heap st))) in *.
  set (data := star_data address star).
  set (st1 := with_heap (<[l:=Block.new encode data]> (heap st)) st).
  destruct (seal_new SHA256 encode (previousHash st1) now'
              (length (chain st1)) data) as [b' Hseal].
  { unfold st1. by rewrite previousHash_frame. }
  rewrite (addBlock_not_stored SHA256 now' l st1 errors
             (Block.new encode data) b'); try done.
  - rewrite bool_decide_eq_false_2 by done.
    eexists. split; [reflexivity|]. repeat split; try done.
    intros i. rewrite (block_at_frame l b' st1 i) by done.
    by apply (block_at_frame l (Block.new encode data) st i).
  - unfold st1. by rewrite validateChain_frame.
  - simpl. by rewrite lookup_insert_eq.
Qed.

(** X16. [initializeChain] adds the genesis block only once: on a chain
    made by appends it changes nothing. *)
Theorem initializeChain_only_once n st now :
  appended SHA256 encode n st ->
  initializeChain SHA256 encode now st = st.
Proof.
  intros (_ & Hh & _)%appended_linked. unfold initializeChain. rewrite Hh.
  by destruct (Z.eqb_spec (Z.of_nat n) (-1)); [lia|].
Qed.

(** X17. Among blocks whose fields hold [null], integers and strings (the
    values of [jsval] that can be serialized), the digest identifies the
    block: two such blocks on whose serializations the digest does not
    collide and that [_hashBlock] maps to the same string agree in all five
    fields. *)
Theorem hashBlock_identifies_the_block (b1 b2 : Block.t) h :
  Block.no_collision SHA256 b1 b2 ->
  Block._hashBlock SHA256 b1 = Normal h ->
  Block._hashBlock SHA256 b2 = Normal h ->
  b1 = b2.
Proof.
  unfold Block._hashBlock. intros Hnc H1 H2.
  destruct (Block.JSON_stringify b1) as [s1|] eqn:Hs1; [|done].
  destruct (Block.JSON_stringify b2) as [s2|] eqn:Hs2; [|done].
  simpl in *. injection H1 as <-. injection H2 as E.
  pose proof (Hnc s1 s2 Hs1 Hs2 (eq_sym E)) as ->.
  by eapply JSON_stringify_inj.
Qed.

End report_facts.

(** ** The two [Blockchain] classes *)

Section classes_facts.

Variable SHA256 : string -> string.
Variable encode : json -> string.
Variable decode : jsval -> completion json.
Variable verify : string -> string -> string -> completion bool.

Local Abbreviation stars2 :=
  (fun h address ls => resolved (Blockchain2.stars_of decode h address ls)).

Local Ltac run2 :=
  cbn [Blockchain2.map_getBData Blockchain2.Promise_all
       Blockchain2.filter_owner mbind mret completion_bind completion_ret].

Lemma stars_of_cons h address l ls :
  stars2 h address (l :: ls)
  = match h !! l with
    | Some b =>
        match Block.getBData decode b with
        | Resolved parsed =>
            match get_prop "data" (Some parsed) with
            | Normal data =>
                match get_prop "owner" data with
                | Normal owner =>
                    match stars2 h address ls with
                    | Some rest =>
                        Some (match owner, data with
                              | Some (JsonStr o), Some d =>
                                  if String.eqb o address then d :: rest else rest
                              | _, _ => rest
                              end)
                    | None => None
                    end
                | Throw _ => None
                end
            | Throw _ => None
            end
        | Rejected _ => None
        end
    | None => None
    end.
Proof.
  unfold Blockchain2.stars_of. cbn [Blockchain2.map_getBData].
  destruct (h !! l) as [b|]; [|done].
  destruct (Blockchain2.map_getBData decode h ls) as [ps|e]; run2.
  - destruct (Block.getBData decode b) as [parsed|e]; run2.
    + destruct (Blockchain2.Promise_all ps) as [ds|e]; run2.
      * destruct (get_prop "data" (Some parsed)) as [data|e] eqn:Hdata;
          run2; [|done].
        destruct (get_prop "owner" data) as [owner|e] eqn:Howner;
          run2; [|done].
        destruct (Blockchain2.filter_owner address ds) as [kept|e];
          run2; [|done].
        destruct owner as [[| | |o| |]|]; try done.
        destruct data as [d|]; [|done].
        destruct (String.eqb o address); [|done].
        unfold Blockchain2.map_data. cbn [omap list_omap]. by rewrite Hdata.
      * destruct (get_prop "data" (Some parsed)) as [data|e']; [|done].
        by destruct (get_prop "owner" data).
    + done.
  - destruct (Block.getBData decode b) as [parsed|e']; [|done].
    destruct (get_prop "data" (Some parsed)) as [data|e']; [|done].
    by destruct (get_prop "owner" data).
Qed.

(** Destructuring and property access differ in the text of the error
    only. *)
Lemma destructure_prop_get_prop k v :
  match destructure_prop k v with
  | Normal d => get_prop k (Some v) = Normal d
  | Throw _ => exists e, get_prop k (Some v) = Throw e
  end.
Proof. destruct v; simpl; eauto. Qed.

Lemma collect_stars_stars_of h address ls stars :
  resolved (collect_stars decode h address ls stars)
  = (stars ++.) <$> stars2 h address ls.
Proof.
  revert stars. induction ls as [|l ls IH]; intros stars.
  - simpl. by rewrite app_nil_r.
  - rewrite stars_of_cons. cbn [collect_stars].
    destruct (h !! l) as [b|]; [|done].
    destruct (Block.getBData decode b) as [parsed|e]; [|done].
    pose proof (destructure_prop_get_prop "data" parsed) as Hd.
    destruct (destructure_prop "data" parsed) as [data|e];
      [rewrite Hd|by destruct Hd as [e' ->]].
    destruct (get_prop "owner" data) as [owner|e]; [|done].
    destruct owner as [[| | |o| |]|]; try (rewrite IH; by destruct (resolved _)).
    destruct data as [d|]; [|rewrite IH; by destruct (resolved _)].
    destruct (String.eqb o address); rewrite IH;
      destruct (resolved _); simpl; try done.
    by rewrite <- (assoc_L (++)).
Qed.

Lemma resolved_Some {A} (p : promise A) a : resolved p = Some a <-> p = Resolved a.
Proof. destruct p; simpl; split; congruence. Qed.

(** X18. The two versions of [getStarsByWalletAddress], the loop that
    awaits one block after the other and the one that decodes all blocks
    with [Promise.all] before filtering, resolve in the same cases and with
    the same stars, on every chain. *)
Theorem getStars_versions_agree st address stars :
  getStarsByWalletAddress decode address st = Resolved stars
  <-> Blockchain2.getStarsByWalletAddress decode address st = Resolved stars.
Proof.
  rewrite <- !resolved_Some. unfold getStarsByWalletAddress.
  rewrite collect_stars_stars_of. unfold Blockchain2.getStarsByWalletAddress.
  by destruct (Blockchain2.stars_of decode _ _ _).
Qed.

Lemma tail_hash_previousHash st :
  (forall i, (i < length (chain st))%nat -> checkable (heap st) (chain st) i) ->
  Blockchain2.tail_hash st = Normal (previousHash st).
Proof.
  intros Hc. unfold Blockchain2.tail_hash, previousHash.
  destruct (length (chain st)) as [|j] eqn:Hlen; [done|]. simpl.
  destruct (Hc j) as (l & b & _ & -> & Hb & _); [lia|]. simpl. by rewrite Hb.
Qed.

Lemma addBlock2_sealed now block st (b b' : Block.t) :
  heap st !! block = Some b ->
  Blockchain2.tail_hash st = Normal (previousHash st) ->
  Block.seal SHA256 (previousHash st) now (Z.of_nat (length (chain st))) b
  = Normal b' ->
  Blockchain2._addBlock SHA256 now block st = (Resolved block, pushed block b' st).
Proof.
  intros Hb Ht Hseal. unfold Blockchain2._addBlock. rewrite Hb, Ht.
  unfold Block.seal in Hseal.
  destruct (Block.setHeight _ _) as [b1|e]; simpl in Hseal; [|done].
  by rewrite Hseal.
Qed.

(** X19. The two versions of [_addBlock] differ by the validation alone:
    for a candidate the chain does not hold and that can be sealed, on a
    chain that [validateChain] can report on, the second version always
    commits the sealed block; the first one commits the same block if the
    report is empty and rejects otherwise. *)
Theorem addBlock_versions_differ_by_validation now block st (b b' : Block.t)
    errors :
  block ∉ chain st ->
  heap st !! block = Some b ->
  Block.seal SHA256 (previousHash st) now (Z.of_nat (length (chain st))) b
  = Normal b' ->
  fst (validateChain SHA256 st) = Resolved errors ->
  Blockchain2._addBlock SHA256 now block st = (Resolved block, pushed block b' st)
  /\ _addBlock SHA256 now block st
     = if bool_decide (errors = [])
       then (Resolved block, pushed block b' st)
       else (Rejected (AddNewBlockError "Chain is invalid!"),
             with_heap (<[block:=b']> (heap st)) st).
Proof.
  intros Hl Hb Hseal Hv. split; [|by eapply addBlock_not_stored].
  apply (addBlock2_sealed now block st b b'); [done| |done].
  apply tail_hash_previousHash.
  destruct (validateChain SHA256 st) as [r st0] eqn:E. simpl in Hv. subst r.
  by apply validateChain_Resolved in E as (_ & _ & Hc).
Qed.

(** X20. The second version of [submitStar] takes stars on any chain
    that [validateChain] (of the first version) can report on, whatever
    the report says: a submission that passes the freshness test and the
    signature check resolves with a new block, appended to the chain. (The
    hash of the last block is taken to be a string.) *)
Theorem submitStar2_does_not_validate st errors now now' address message
    signature star :
  fst (validateChain SHA256 st) = Resolved errors ->
  (previousHash st = JNull \/ exists s, previousHash st = JStr s) ->
  elapsed_exceeds (parseInt (helpers.getTimeStamp now))
    (parseInt_opt (JS.split ":" message !! 1%nat)) (limitTime st) = false ->
  verify message address signature = Normal true ->
  exists block st',
    Blockchain2.submitStar SHA256 encode verify now now' address message
      signature star st
    = (Resolved block, st')
    /\ chain st' = chain st ++ [block]
    /\ height st' = height st + 1
    /\ (exists b', block_at st' (length (chain st)) = Some b'
                   /\ Block.body b' = JStr (encode (star_data address star)))
    /\ forall i, (i < length (chain st))%nat -> block_at st' i = block_at st i.
Proof.
  intros Hv Hph Hfresh Hsig.
  unfold Blockchain2.submitStar. rewrite Hfresh, Hsig. unfold alloc.
  assert (forall i, (i < length (chain st))%nat ->
                    checkable (heap st) (chain st) i) as Hc.
  { destruct (validateChain SHA256 st) as [r st0] eqn:E. simpl in Hv. subst r.
    by apply validateChain_Resolved in E as (_ & _ & Hc). }
  pose proof (checkable_fresh st Hc) as Hl.
  set (l := fresh (dom (heap st))) in *.
  set (data := star_data address star).
  set (st1 := with_heap (<[l:=Block.new encode data]> (heap st)) st).
  destruct (seal_new SHA256 encode (previousHash st1) now'
              (length (chain st1)) data) as [b' Hseal].
  { unfold st1. by rewrite previousHash_frame. }
  rewrite (addBlock2_sealed now' l st1 (Block.new encode data) b'); try done.
  - exists l, (pushed l b' st1). split; [done|]. split; [done|]. split; [done|].
    split.
    + exists b'. split; [apply (block_at_pushed_new l b' st1)|].
      by destruct (sealed_fields _ _ _ _ _ _ Hseal) as (_ & -> & _).
    + intros i Hi. rewrite block_at_pushed_old by done.
      by apply (block_at_frame l (Block.new encode data) st i).
  - simpl. by rewrite lookup_insert_eq.
  - unfold st1. rewrite previousHash_frame by done.
    rewrite <- (tail_hash_previousHash st Hc).
    unfold Blockchain2.tail_hash. simpl.
    destruct (length (chain st)) as [|j]; [done|].
    by rewrite lookup_block_frame.
Qed.

End classes_facts.

(** ** The further facts on the concrete chains *)

Section further_examples.

Import Example Scenario.

Local Abbreviation H := Double.SHA256.

Lemma getTimeStamp_in_seconds_witness :
  parseInt (helpers.getTimeStamp 1604321234567) = Some 1604321234.
Proof. apply (getTimeStamp_in_seconds 1604321234567). lia. Defined.

Lemma issued_challenge_carries_issue_time_witness :
  exists message,
    requestMessageOwnershipVerification 1604321234567 "addr1" = Resolved message
    /\ parseInt_opt (JS.split ":" message !! 1%nat) = Some 1604321234.
Proof.
  apply (issued_challenge_carries_issue_time 1604321234567 "addr1");
    [lia|reflexivity].
Defined.

Lemma challenge_of_address_with_colon_witness :
  exists message,
    requestMessageOwnershipVerification 1604321234567 "ab:12:cd"
    = Resolved message
    /\ parseInt_opt (JS.split ":" message !! 1%nat) = Some 12.
Proof.
  apply (challenge_of_address_with_colon 1604321234567 "ab:12:cd" "12").
  reflexivity.
Defined.

Lemma colon_address_challenge_never_expires_witness :
  let message :=
    "ab:cd" +:+ ":" +:+ helpers.getTimeStamp 1604321234567 +:+ ":starRegistry" in
  submitStar H Double.encode Double.accept 1704321300000 1704321300001
    "ab:cd" message "sig" (JsonStr "Polaris") genesis_only
  = verify_and_append H Double.encode Double.accept 1704321300001
      "ab:cd" message "sig" (JsonStr "Polaris") genesis_only.
Proof.
  apply (colon_address_challenge_never_expires H Double.encode Double.accept
           1704321300000 1704321300001 1604321234567 "ab:cd" "cd" "sig"
           (JsonStr "Polaris") genesis_only).
  - reflexivity.
  - reflexivity.
Defined.


Lemma cached_height_is_kept_witness :
  (forall now block,
     height_cached (snd (_addBlock H now block genesis_only)))
  /\ (forall now now' address message signature star,
        height_cached
          (snd (submitStar H Double.encode Double.accept now now' address
                  message signature star genesis_only)))
  /\ height_cached (snd (validateChain H genesis_only)).
Proof.
  apply (cached_height_is_kept H Double.encode Double.accept genesis_only).
  vm_compute. reflexivity.
Defined.

Lemma getBlockByHeight_is_the_index_witness :
  getBlockByHeight (JNum 1) one_star = Resolved (chain one_star !! 1%nat).
Proof.
  apply (getBlockByHeight_is_the_index H Double.encode 1 one_star (JNum 1)).
  apply built_appended, built_one_star.
Defined.

Lemma getBlockByHash_finds_the_block_witness :
  (forall i b, block_at one_star i = Some b ->
     getBlockByHash (Block.hash b) one_star = Resolved (chain one_star !! i))
  /\ (forall v, (forall i b, block_at one_star i = Some b -> Block.hash b <> v) ->
        getBlockByHash v one_star = Resolved None).
Proof.
  apply (getBlockByHash_finds_the_block H Double.encode 1 one_star).
  - apply built_one_star.
  - intros i j bi bj _ _. apply no_collision_Double.
Defined.

Lemma getBData_by_position_witness :
  Block.getBData Double.decode star_block = Resolved polaris.
Proof.
  apply (getBData_by_position H Double.encode Double.decode 1 one_star 1
           star_block).
  - apply built_appended, built_one_star.
  - vm_compute. reflexivity.
Defined.

Lemma one_star_holds_records :
  holds_records Double.decode one_star [("addr1", JsonStr "Polaris")].
Proof.
  unfold holds_records.
  assert (drop 1 (chain one_star) = [1%nat]) as -> by (vm_compute; reflexivity).
  constructor; [|constructor]. exists star_block.
  split; vm_compute; reflexivity.
Defined.

Lemma getStars_are_the_records_of_the_owner_witness :
  getStarsByWalletAddress Double.decode "addr1" one_star
  = Resolved [JsonObj [("owner", JsonStr "addr1"); ("star", JsonStr "Polaris")]].
Proof.
  apply (getStars_are_the_records_of_the_owner Double.decode one_star
           [("addr1", JsonStr "Polaris")] "addr1").
  apply one_star_holds_records.
Defined.

Lemma submitted_star_is_listed_witness :
  getStarsByWalletAddress Double.decode "addr1"
    (snd (submitStar H Double.encode Double.accept 1604321300000 1604321300001
            "addr1" challenge "sig" (JsonStr "Polaris") genesis_only))
  = Resolved [JsonObj [("owner", JsonStr "addr1"); ("star", JsonStr "Polaris")]].
Proof.
  apply (submitted_star_is_listed H Double.encode Double.decode Double.accept
           0 genesis_only [] 1604321300000 1604321300001 "addr1" challenge "sig"
           (JsonStr "Polaris") 1%nat).
  - apply built_appended, built_genesis_only.
  - unfold holds_records.
    assert (drop 1 (chain genesis_only) = []) as -> by (vm_compute; reflexivity).
    constructor.
  - reflexivity.
  - vm_compute. reflexivity.
Defined.

Lemma validateChain_no_issue_iff_witness :
  fst (validateChain H one_star) = Resolved []
  /\ forall i, (i < length (chain one_star))%nat -> sound_at H one_star i.
Proof.
  assert (fst (validateChain H one_star) = Resolved []) as Hv
    by (vm_compute; reflexivity).
  split; [exact Hv|].
  exact (proj1 (validateChain_no_issue_iff H one_star) Hv).
Defined.

Lemma tampered_previous_hash_report_witness :
  let bm := Block.with_previousBlockHash (JStr "00") star_block in
  let tampered := with_heap (<[1%nat:=bm]> (heap one_star)) one_star in
  validateChain H tampered
  = (Resolved [not_valid bm; wrongly_linked bm genesis_block], tampered).
Proof.
  apply (tampered_previous_hash_report H Double.encode 1 one_star 1 1%nat
           star_block "00").
  - apply built_one_star.
  - vm_compute. reflexivity.
  - vm_compute. reflexivity.
  - vm_compute. intros E. discriminate E.
  - apply no_collision_Double.
Defined.

Lemma tampered_hash_report_witness :
  let bm := Block.with_hash (JStr "00") genesis_block in
  let tampered := with_heap (<[0%nat:=bm]> (heap one_star)) one_star in
  validateChain H tampered
  = (Resolved [not_valid bm; wrongly_linked star_block bm], tampered).
Proof.
  apply (tampered_hash_report H Double.encode 1 one_star 0 0%nat
           genesis_block (JStr "00")).
  - apply built_one_star.
  - vm_compute. reflexivity.
  - vm_compute. reflexivity.
  - vm_compute. intros E. discriminate E.
  - vm_compute. reflexivity.
Defined.

Lemma submitStar_on_reported_chain_witness :
  exists st',
    submitStar H Double.encode Double.accept 1604321300000 1604321300001
      "addr1" challenge "sig" (JsonStr "Polaris") overwritten
    = (Rejected (SubmitStarError "Chain is invalid!"), st')
    /\ chain st' = chain overwritten /\ height st' = height overwritten
    /\ forall i, block_at st' i = block_at overwritten i.
Proof.
  apply (submitStar_on_reported_chain H Double.encode Double.accept overwritten
           (match fst (validateChain H overwritten) with
            | Resolved errors => errors
            | Rejected _ => []
            end)).
  - vm_compute. reflexivity.
  - vm_compute. intros E. discriminate E.
  - right. eexists. vm_compute. reflexivity.
  - vm_compute. reflexivity.
  - reflexivity.
Defined.

Lemma initializeChain_only_once_witness :
  initializeChain H Double.encode 1604321400000 one_star = one_star.
Proof.
  apply (initializeChain_only_once H Double.encode 1 one_star).
  apply built_appended, built_one_star.
Defined.

Lemma hashBlock_identifies_the_block_witness :
  Block._hashBlock H star_block
  = Block._hashBlock H (Block.with_hash (Block.hash star_block) star_block)
  /\ star_block = Block.with_hash (Block.hash star_block) star_block.
Proof.
  split; [reflexivity|].
  destruct (Block._hashBlock H star_block) as [h|e] eqn:E;
    [|vm_compute in E; discriminate E].
  apply (hashBlock_identifies_the_block H star_block
           (Block.with_hash (Block.hash star_block) star_block) h).
  - apply no_collision_Double.
  - exact E.
  - exact E.
Defined.

Lemma getStars_versions_agree_witness :
  getStarsByWalletAddress Double.decode "addr1" one_star
  = Resolved [JsonObj [("owner", JsonStr "addr1"); ("star", JsonStr "Polaris")]]
  /\ Blockchain2.getStarsByWalletAddress Double.decode "addr1" one_star
     = Resolved [JsonObj [("owner", JsonStr "addr1"); ("star", JsonStr "Polaris")]].
Proof.
  assert (getStarsByWalletAddress Double.decode "addr1" one_star
          = Resolved [JsonObj [("owner", JsonStr "addr1");
                               ("star", JsonStr "Polaris")]]) as E
    by (vm_compute; reflexivity).
  split; [exact E|].
  exact (proj1 (getStars_versions_agree Double.decode one_star "addr1" _) E).
Defined.

Lemma addBlock_versions_differ_by_validation_witness :
  exists b',
    Blockchain2._addBlock H 1604321400000 2%nat overwritten_with_candidate
    = (Resolved 2%nat, pushed 2%nat b' overwritten_with_candidate)
    /\ _addBlock H 1604321400000 2%nat overwritten_with_candidate
       = (Rejected (AddNewBlockError "Chain is invalid!"),
          with_heap (<[2%nat:=b']> (heap overwritten_with_candidate))
                    overwritten_with_candidate).
Proof.
  destruct (Block.seal H (previousHash overwritten_with_candidate) 1604321400000
              (Z.of_nat (length (chain overwritten_with_candidate)))
              (Block.new Double.encode polaris)) as [b'|e] eqn:Hseal;
    [|vm_compute in Hseal; discriminate Hseal].
  exists b'.
  apply (addBlock_versions_differ_by_validation H 1604321400000 2%nat
           overwritten_with_candidate (Block.new Double.encode polaris) b'
           [not_valid (Block.with_body (JStr "00") star_block)]).
  - vm_compute. intros E. apply elem_of_cons in E as [E|E]; [discriminate E|].
    apply list_elem_of_singleton in E. discriminate E.
  - vm_compute. reflexivity.
  - exact Hseal.
  - vm_compute. reflexivity.
Defined.

Lemma submitStar2_does_not_validate_witness :
  exists block st',
    Blockchain2.submitStar H Double.encode Double.accept 1604321300000
      1604321300001 "addr1" challenge "sig" (JsonStr "Polaris") overwritten
    = (Resolved block, st')
    /\ chain st' = chain overwritten ++ [block]
    /\ height st' = height overwritten + 1
    /\ (exists b', block_at st' (length (chain overwritten)) = Some b'
                   /\ Block.body b'
                      = JStr (Double.encode
                                (star_data "addr1" (JsonStr "Polaris"))))
    /\ forall i, (i < length (chain overwritten))%nat ->
                 block_at st' i = block_at overwritten i.
Proof.
  apply (submitStar2_does_not_validate H Double.encode Double.accept overwritten
           (match fst (validateChain H overwritten) with
            | Resolved errors => errors
            | Rejected _ => []
            end)).
  - vm_compute. reflexivity.
  - right. eexists. vm_compute. reflexivity.
  - vm_compute. reflexivity.
  - reflexivity.
Defined.

End further_examples.

(** ** A call around its [await] *)

Section overlap_facts.

Variable SHA256 : string -> string.

(** Called on its own, with nothing in between its two parts, [_addBlock]
    is the first part followed by the second. *)
Lemma addBlock_two_turns now block st :
  _addBlock SHA256 now block st
  = (let '(s, st1) := _addBlock_until_await SHA256 now block st in
     _addBlock_after_await s st1).
Proof.
  unfold _addBlock, _addBlock_until_await.
  destruct (heap st !! block) as [b|]; [|done].
  destruct (Block.setHeight _ _) as [b1|e]; [|done].
  destruct (Block.setHash SHA256 b1) as [b2|e]; [|done].
  by destruct (validateChain SHA256 _) as [[errors|e] st2].
Qed.

(** On an empty chain the loop of [validateChain] has no turn. *)
Lemma validateChain_empty st :
  chain st = [] -> validateChain SHA256 st = (Resolved [], st).
Proof.
  intros Hc. unfold validateChain. rewrite Hc. simpl.
  destruct st. simpl in Hc. by subst.
Qed.

End overlap_facts.

Section overlap_examples.

Import Example Scenario.

Local Abbreviation H := Double.SHA256.



End overlap_examples.
